(** * MorseMuse: the Morse table, the timing decoder and the practice session

    A shallow embedding of the TypeScript sources

    - [app/utils/morseConverter.ts]   (module [MorseConverter])
    - [app/routes/learn.words.tsx]    (modules [LearnWords], the loader, and
                                       [LearnWordsPage], the component)
    - [app/components/MorseInput.tsx] (module [MorseInput])
    - [app/components/LearningInterface.tsx] (module [LearningInterface])

    JavaScript strings are modelled by [string]; the development covers the
    ASCII fragment, on which [toUpperCase] acts character by character and
    white space is the characters 9 to 13 and 32.
    Timestamps ([Date.now()]) are integers of milliseconds, in [Z].
    Components are modelled by explicit state passing: the state cells and
    refs of a component are a record, an event handler is a function on it,
    and effects run to completion before the next event. The timers of the
    event loop are a table shared by the components; a timer fires no
    earlier than it is due. *)

From Stdlib Require Import Ascii QArith.
From stdpp Require Import base numbers option list strings gmap.

Local Open Scope Z_scope.

(** ** The fragment of the JavaScript string library the sources use *)
Module JS.

(** The one-character string holding the double quote (code 34). *)
Definition dquote : string := String (ascii_of_nat 34) EmptyString.

Definition is_lower (c : ascii) : bool :=
  let n := N_of_ascii c in (97 <=? n)%N && (n <=? 122)%N.

Definition is_upper (c : ascii) : bool :=
  let n := N_of_ascii c in (65 <=? n)%N && (n <=? 90)%N.

Definition upper_char (c : ascii) : ascii :=
  if is_lower c then ascii_of_N (N_of_ascii c - 32) else c.

(** [s.toUpperCase()] *)
Fixpoint toUpperCase (s : string) : string :=
  match s with
  | EmptyString => EmptyString
  | String c s' => String (upper_char c) (toUpperCase s')
  end.

(** White space and line terminators stripped by [trim], ASCII range. *)
Definition is_space (c : ascii) : bool :=
  let n := N_of_ascii c in ((9 <=? n)%N && (n <=? 13)%N) || (n =? 32)%N.

Fixpoint trimStart (s : string) : string :=
  match s with
  | EmptyString => EmptyString
  | String c s' => if is_space c then trimStart s' else s
  end.

(** [trimEnd] keeps a character when it is not a space or when something
    is kept after it. *)
Fixpoint trimEnd (s : string) : string :=
  match s with
  | EmptyString => EmptyString
  | String c s' =>
      match trimEnd s' with
      | EmptyString => if is_space c then EmptyString else String c EmptyString
      | r => String c r
      end
  end.

(** [s.trim()] *)
Definition trim (s : string) : string := trimEnd (trimStart s).

(** [s.split('')]: the list of the one-character strings of [s]. *)
Fixpoint split_chars (s : string) : list string :=
  match s with
  | EmptyString => []
  | String c s' => String c EmptyString :: split_chars s'
  end.

(** [s.split(sep)] for a one-character separator: never the empty list. *)
Fixpoint split_on (sep : ascii) (s : string) : list string :=
  match s with
  | EmptyString => [EmptyString]
  | String c s' =>
      if Ascii.eqb c sep then EmptyString :: split_on sep s'
      else match split_on sep s' with
           | [] => [String c EmptyString]
           | w :: ws => String c w :: ws
           end
  end.

(** [l.join(sep)] *)
Definition join (sep : string) (l : list string) : string :=
  String.concat sep l.

(** [s.includes(needle)] *)
Fixpoint includes (needle s : string) : bool :=
  String.prefix needle s ||
  match s with
  | EmptyString => false
  | String _ s' => includes needle s'
  end.

(** [/^[A-Z]+$/.test(s)]: without the [m] flag the anchors are the two
    ends of the input. *)
Fixpoint all_upper (s : string) : bool :=
  match s with
  | EmptyString => true
  | String c s' => is_upper c && all_upper s'
  end.

Definition test_AZ_plus (s : string) : bool :=
  match s with
  | EmptyString => false
  | _ => all_upper s
  end.

(** Truthiness of a string: [!s] is [true] exactly for the empty string. *)
Definition truthy (s : string) : bool :=
  match s with EmptyString => false | _ => true end.

(** [o || d] for [o : string | undefined]: [undefined] and the empty
    string are falsy. *)
Definition or_else (o : option string) (d : string) : string :=
  match o with
  | Some v => if truthy v then v else d
  | None => d
  end.

(** [s.replace(/\s+/g, ' ')]: each maximal run of white space becomes one
    space. [inRun] tells that the previous character was white space. *)
Fixpoint replace_ws_from (inRun : bool) (s : string) : string :=
  match s with
  | EmptyString => EmptyString
  | String c s' =>
      if is_space c then
        if inRun then replace_ws_from true s'
        else String " " (replace_ws_from true s')
      else String c (replace_ws_from false s')
  end.

Definition replace_ws (s : string) : string := replace_ws_from false s.

End JS.

(** ** app/utils/morseConverter.ts *)
Module MorseConverter.

(** The literal of [morseCodeMap], in the order of the source. *)
Definition morseCodeMap_literal : list (string * string) :=
  [ ("A", ".-"); ("B", "-..."); ("C", "-.-."); ("D", "-.."); ("E", ".");
    ("F", "..-."); ("G", "--."); ("H", "...."); ("I", ".."); ("J", ".---");
    ("K", "-.-"); ("L", ".-.."); ("M", "--"); ("N", "-."); ("O", "---");
    ("P", ".--."); ("Q", "--.-"); ("R", ".-."); ("S", "..."); ("T", "-");
    ("U", "..-"); ("V", "...-"); ("W", ".--"); ("X", "-..-"); ("Y", "-.--");
    ("Z", "--..");
    ("1", ".----"); ("2", "..---"); ("3", "...--"); ("4", "....-");
    ("5", "....."); ("6", "-...."); ("7", "--..."); ("8", "---..");
    ("9", "----."); ("0", "-----");
    (".", ".-.-.-"); (",", "--..--"); ("?", "..--.."); ("'", ".----.");
    ("!", "-.-.--"); ("/", "-..-."); ("(", "-.--."); (")", "-.--.-");
    ("&", ".-..."); (":", "---..."); (";", "-.-.-."); ("=", "-...-");
    ("+", ".-.-."); ("-", "-....-"); ("_", "..--.-");
    (JS.dquote, ".-..-."); ("$", "...-..-"); ("@", ".--.-.") ].

(** The object [morseCodeMap], used as a map from one-character strings
    to codes. *)
Definition morseCodeMap : gmap string string :=
  list_to_map morseCodeMap_literal.

(** [morseCodeMap[char]] *)
Definition encode (char : string) : option string := morseCodeMap !! char.

(** [wordToMorse(word)] *)
Definition wordToMorse (word : string) : string :=
  if negb (JS.truthy word) then EmptyString
  else
    JS.join " "
      (filter (λ code, code ≠ EmptyString)
         ((λ char, JS.or_else (morseCodeMap !! char) EmptyString)
            <$> JS.split_chars (JS.toUpperCase word))).

(** [Object.entries(morseCodeMap).reduce((acc, [key, value]) =>
    { acc[value] = key; return acc; }, {})]: whatever the order of the
    entries, a later entry overwrites an earlier one with the same code.
    The object is modelled by its own properties: looking up a name that
    [Object.prototype] defines (["constructor"], ["toString"], ...) is
    outside the model. No code and no one-character string is such a
    name. *)
Definition reverse_of (entries : list (string * string)) : gmap string string :=
  foldl (λ acc kv, <[kv.2 := kv.1]> acc) ∅ entries.

Definition reverseMorseCodeMap : gmap string string :=
  reverse_of (map_to_list morseCodeMap).

(** [reverseMorseCodeMap[code]] *)
Definition decode (code : string) : option string :=
  reverseMorseCodeMap !! code.

(** [morseToWord(morse)] *)
Definition morseToWord (morse : string) : string :=
  JS.join EmptyString
    ((λ code, JS.or_else (reverseMorseCodeMap !! code) "?")
       <$> JS.split_on " " (JS.trim morse)).

End MorseConverter.

(** ** app/routes/learn.words.tsx: the server-side loader *)
Module LearnWords.

(** [type LoaderData = { word: string; error: string | null }] *)
Record LoaderData := { word : string; error : option string }.

(** What the [try] block observes of the generator: the text of the
    response, or an exception, whose [message] may be undefined. *)
Inductive Generation :=
| Text (text : string)
| Throws (message : option string).

(** [loader], given [process.env.GEMINI_API_KEY] and the outcome of
    [model.generateContent(...)] followed by [response.text()]. *)
Definition loader (apiKey : option string) (outcome : Generation) : LoaderData :=
  if negb (JS.truthy (default EmptyString apiKey)) then
    {| word := "ERROR"; error := Some "API key not configured." |}
  else
    match outcome with
    | Text payload =>
        let text := JS.toUpperCase (JS.trim payload) in
        if negb (JS.truthy text) || negb (JS.test_AZ_plus text)
           || JS.includes " " text
        then {| word := "HELLO";
                error := Some "Received invalid word format, using default." |}
        else {| word := text; error := None |}
    | Throws message =>
        let errorMessage :=
          if from_option (JS.includes "API key not valid") false message
          then "Invalid API Key."
          else "Failed to fetch word from API." in
        {| word := "MORSE"; error := Some errorMessage |}
    end.

End LearnWords.

(** ** app/routes/learn.words.tsx: the page component [LearnWords] *)
Module LearnWordsPage.

Inductive ValidationState := idle | correct | incorrect | hinted.

(** [fetcher.state] and [fetcher.data] *)
Inductive FetcherState := Idle | Loading | Submitting.

Record Fetcher := {
  state : FetcherState;
  data : option LearnWords.LoaderData
}.

(** The [useState] cells of the component and its fetcher. *)
Record State := {
  currentWord : string;
  apiError : option string;
  userInput : string;
  correctMorse : string;
  showHint : bool;
  feedback : string;
  validationState : ValidationState;
  fetcher : Fetcher
}.

Definition isLoading (s : State) : bool :=
  match state (fetcher s) with
  | Loading | Submitting => true
  | Idle => false
  end.

Definition isCorrect (s : State) : bool :=
  match validationState s with correct => true | _ => false end.

(** The effect on [currentWord]: [setCorrectMorse(wordToMorse(currentWord))]. *)
Definition wordEffect (s : State) : State :=
  {| currentWord := currentWord s; apiError := apiError s;
     userInput := userInput s;
     correctMorse := MorseConverter.wordToMorse (currentWord s);
     showHint := showHint s; feedback := feedback s;
     validationState := validationState s; fetcher := fetcher s |}.

(** The effect on [fetcher.data] and [fetcher.state]. *)
Definition fetcherEffect (s : State) : State :=
  match data (fetcher s), state (fetcher s) with
  | Some d, Idle =>
      {| currentWord := LearnWords.word d; apiError := LearnWords.error d;
         userInput := EmptyString; correctMorse := correctMorse s;
         showHint := false; feedback := EmptyString;
         validationState := idle; fetcher := fetcher s |}
  | _, _ => s
  end.

(** The component after its first commit, given [useLoaderData()]: the
    fetcher has no data yet, and the effect on [currentWord] has run. *)
Definition mount (initialData : LearnWords.LoaderData) : State :=
  wordEffect
    {| currentWord := LearnWords.word initialData;
       apiError := LearnWords.error initialData;
       userInput := EmptyString; correctMorse := EmptyString;
       showHint := false; feedback := EmptyString;
       validationState := idle;
       fetcher := {| state := Idle; data := None |} |}.

(** [userInput.trim().replace(/\s+/g, ' ')] *)
Definition cleanedInput (userInput : string) : string :=
  JS.replace_ws (JS.trim userInput).

Definition handleCheck (s : State) : State :=
  if isLoading s || isCorrect s then s
  else if decide (cleanedInput (userInput s) = correctMorse s) then
    {| currentWord := currentWord s; apiError := apiError s;
       userInput := userInput s; correctMorse := correctMorse s;
       showHint := showHint s; feedback := "Correct!";
       validationState := correct; fetcher := fetcher s |}
  else
    {| currentWord := currentWord s; apiError := apiError s;
       userInput := userInput s; correctMorse := correctMorse s;
       showHint := showHint s;
       feedback := "Incorrect. Try again or use the hint.";
       validationState := incorrect; fetcher := fetcher s |}.

Definition handleShowHint (s : State) : State :=
  if isLoading s || isCorrect s then s
  else
    {| currentWord := currentWord s; apiError := apiError s;
       userInput := userInput s; correctMorse := correctMorse s;
       showHint := true; feedback := EmptyString;
       validationState := hinted; fetcher := fetcher s |}.

(** [fetcher.load('/learn/words')] puts the fetcher in the state
    ["loading"]; the data of the previous load stay until the new ones
    arrive. The effect on the fetcher then runs and changes nothing. *)
Definition handleNextWord (s : State) : State :=
  if isLoading s then s
  else
    fetcherEffect
      {| currentWord := currentWord s; apiError := apiError s;
         userInput := userInput s; correctMorse := correctMorse s;
         showHint := showHint s; feedback := feedback s;
         validationState := validationState s;
         fetcher := {| state := Loading; data := data (fetcher s) |} |}.

(** The load finishes with the result [d] of the loader: the fetcher is
    idle again with the new data, the effect on the fetcher runs, and the
    effect on [currentWord] runs when the word changed. *)
Definition loaded (d : LearnWords.LoaderData) (s : State) : State :=
  let s1 :=
    fetcherEffect
      {| currentWord := currentWord s; apiError := apiError s;
         userInput := userInput s; correctMorse := correctMorse s;
         showHint := showHint s; feedback := feedback s;
         validationState := validationState s;
         fetcher := {| state := Idle; data := Some d |} |} in
  if decide (currentWord s1 = currentWord s) then s1 else wordEffect s1.

(** [onChange] of the input field. *)
Definition setUserInput (value : string) (s : State) : State :=
  {| currentWord := currentWord s; apiError := apiError s;
     userInput := value; correctMorse := correctMorse s;
     showHint := showHint s; feedback := feedback s;
     validationState := validationState s; fetcher := fetcher s |}.

(** What the user and the network can do. *)
Inductive Event :=
| Type_ (value : string)
| Check
| Hint
| Next
| Loaded (d : LearnWords.LoaderData).

(** One event; [None] when the control is disabled, or when no load is
    under way. *)
Definition step (e : Event) (s : State) : option State :=
  match e with
  | Type_ value =>
      if isLoading s || isCorrect s then None else Some (setUserInput value s)
  | Check =>
      if isLoading s || negb (JS.truthy (userInput s)) || isCorrect s then None
      else Some (handleCheck s)
  | Hint =>
      if isLoading s || showHint s || isCorrect s then None
      else Some (handleShowHint s)
  | Next => if isLoading s then None else Some (handleNextWord s)
  | Loaded d => if isLoading s then Some (loaded d s) else None
  end.

Fixpoint run (evs : list Event) (s : State) : option State :=
  match evs with
  | [] => Some s
  | e :: evs' => step e s ≫= run evs'
  end.

End LearnWordsPage.

(** ** The timer table of the event loop: [setTimeout] and [clearTimeout] *)

(** The three delayed callbacks of the application. A closure of
    [handleInputComplete] is determined by the [currentItemIndex] of the
    render that created it, and is identified with it. *)
Inductive Callback :=
| CharTimeout (onInputComplete : nat)   (* MorseInput.tsx, handlePressEnd *)
| Advance (currentItemIndex : nat)      (* LearningInterface.tsx, correct answer *)
| Retry.                                (* LearningInterface.tsx, incorrect answer *)

Definition is_char (cb : Callback) : bool :=
  match cb with CharTimeout _ => true | _ => false end.

Module Timers.

Record Timer := { due : Z; callback : Callback }.

(** Pending timers by handle; handles are positive, hence truthy, and
    are never reused. *)
Record t := { pending : gmap positive Timer; nextId : positive }.

Definition empty : t := {| pending := ∅; nextId := 1%positive |}.

Definition setTimeout (cb : Callback) (delay now : Z) (ts : t) : positive * t :=
  (nextId ts,
   {| pending := <[nextId ts := {| due := now + delay; callback := cb |}]> (pending ts);
      nextId := Pos.succ (nextId ts) |}).

Definition clearTimeout (id : positive) (ts : t) : t :=
  {| pending := delete id (pending ts); nextId := nextId ts |}.

(** The event loop takes timer [id] off the table to run it: only a
    pending timer whose delay has elapsed. *)
Definition take (id : positive) (now : Z) (ts : t) : option (Callback * t) :=
  match pending ts !! id with
  | Some tm =>
      if decide (due tm ≤ now) then Some (callback tm, clearTimeout id ts)
      else None
  | None => None
  end.

End Timers.

(** ** app/components/MorseInput.tsx: the timing decoder *)
Module MorseInput.

Definition morseCodeMap_literal : list (string * string) :=
  MorseConverter.morseCodeMap_literal ++ [(" ", "/")].

Definition ditDuration : Z := 150.
Definition dahDuration : Z := ditDuration * 3.
Definition symbolSpaceThreshold : Q := (inject_Z ditDuration * 1.5)%Q.
Definition interCharSpace : Z := ditDuration * 3.

(** The state and the refs of one mounted component. *)
Record State := {
  rawInput : string;
  isPressing : bool;
  pressStartTime : option Z;
  lastReleaseTime : Z;
  charTimer : option positive;
  currentMorseChar : string
}.

(** A component with its timers. *)
Definition Config : Type := State * Timers.t.

(** The state at mount: [useRef(Date.now())] for [lastReleaseTime]. *)
Definition mount (now : Z) : State :=
  {| rawInput := EmptyString; isPressing := false; pressStartTime := None;
     lastReleaseTime := now; charTimer := None;
     currentMorseChar := EmptyString |}.

Definition clearTimers (c : Config) : Config :=
  let '(s, ts) := c in
  ({| rawInput := rawInput s; isPressing := isPressing s;
      pressStartTime := pressStartTime s;
      lastReleaseTime := lastReleaseTime s;
      charTimer := None;
      currentMorseChar := currentMorseChar s |},
   match charTimer s with
   | Some id => Timers.clearTimeout id ts
   | None => ts
   end).

(** The imperative handle [clearInput()]. *)
Definition clearInput (now : Z) (c : Config) : Config :=
  let '(s, ts) := clearTimers c in
  ({| rawInput := EmptyString; isPressing := false;
      pressStartTime := None; lastReleaseTime := now;
      charTimer := charTimer s; currentMorseChar := EmptyString |}, ts).

(** [completeInputSequence()]: the call of [onInputComplete] it makes,
    if any. The state is not touched. *)
Definition completeInputSequence (onInputComplete : nat) (s : State)
  : option (nat * string) :=
  if JS.truthy (currentMorseChar s)
  then Some (onInputComplete, currentMorseChar s)
  else None.

Definition handlePressStart (now : Z) (c : Config) : Config :=
  let '(s, ts) := clearTimers c in
  ({| rawInput := rawInput s; isPressing := true;
      pressStartTime := Some now;
      lastReleaseTime := lastReleaseTime s;
      charTimer := charTimer s;
      currentMorseChar := currentMorseChar s |}, ts).

(** [!pressStartTime.current]: [null] and the timestamp [0] are falsy. *)
Definition pressStarted (s : State) : option Z :=
  match pressStartTime s with
  | Some t => if decide (t = 0) then None else Some t
  | None => None
  end.

(** [pressDuration < symbolSpaceThreshold ? '.' : '-'] *)
Definition classify (pressDuration : Z) : string :=
  if negb (Qle_bool symbolSpaceThreshold (inject_Z pressDuration))
  then "." else "-".

Definition handlePressEnd (onInputComplete : nat) (now : Z) (c : Config) : Config :=
  match pressStarted c.1 with
  | None => c
  | Some start =>
      let pressDuration := now - start in
      let symbol := classify pressDuration in
      let s := c.1 in
      let s1 :=
        {| rawInput := rawInput s +:+ symbol; isPressing := false;
           pressStartTime := None; lastReleaseTime := now;
           charTimer := charTimer s;
           currentMorseChar := currentMorseChar s +:+ symbol |} in
      let '(s2, ts2) := clearTimers (s1, c.2) in
      let '(id, ts3) :=
        Timers.setTimeout (CharTimeout onInputComplete) interCharSpace now ts2 in
      ({| rawInput := rawInput s2; isPressing := isPressing s2;
          pressStartTime := pressStartTime s2;
          lastReleaseTime := lastReleaseTime s2;
          charTimer := Some id;
          currentMorseChar := currentMorseChar s2 |}, ts3)
  end.

(** The body of the timer armed by [handlePressEnd]:
    [completeInputSequence(); charTimer.current = null]. *)
Definition charTimeout (onInputComplete : nat) (s : State)
  : State * option (nat * string) :=
  ({| rawInput := rawInput s; isPressing := isPressing s;
      pressStartTime := pressStartTime s;
      lastReleaseTime := lastReleaseTime s;
      charTimer := None;
      currentMorseChar := currentMorseChar s |},
   completeInputSequence onInputComplete s).

(** *** The decoder as a machine
    driven by its input surface, by the event loop and by the parent
    holding its handle. *)
Inductive Event :=
| PressStart
| PressEnd
| TimerFires (id : positive)
| ClearInput.

(** One event at time [now], with the [onInputComplete] of the current
    props. [None]: the event cannot happen (no such timer is due). The
    second component is the call of [onInputComplete] made, if any. *)
Definition step (onInputComplete : nat) (now : Z) (e : Event) (c : Config)
  : option (Config * option (nat * string)) :=
  match e with
  | PressStart => Some (handlePressStart now c, None)
  | PressEnd => Some (handlePressEnd onInputComplete now c, None)
  | ClearInput => Some (clearInput now c, None)
  | TimerFires id =>
      match Timers.take id now c.2 with
      | Some (CharTimeout h, ts) =>
          let '(s, out) := charTimeout h c.1 in Some ((s, ts), out)
      | _ => None
      end
  end.

(** A run of timestamped events from clock [clock]: time does not go
    backwards. The calls of [onInputComplete] are collected in order. *)
Fixpoint run (onInputComplete : nat) (clock : Z) (evs : list (Z * Event))
    (c : Config) : option (Config * list (nat * string)) :=
  match evs with
  | [] => Some (c, [])
  | (now, e) :: evs' =>
      if decide (clock ≤ now) then
        '(c1, out) ← step onInputComplete now e c;
        '(c2, outs) ← run onInputComplete now evs' c1;
        Some (c2, option_list out ++ outs)
      else None
  end.

(** States reached from a freshly mounted component. *)
Inductive Reachable : Z → Config → Prop :=
| Reachable_mount now : Reachable now (mount now, Timers.empty)
| Reachable_step h clock now e c c' out :
    Reachable clock c → clock ≤ now →
    step h now e c = Some (c', out) →
    Reachable now c'.

(** The object [morseCodeMap] of this file. *)
Definition morseCodeMap : gmap string string :=
  list_to_map morseCodeMap_literal.



End MorseInput.

(** ** app/components/LearningInterface.tsx: the letter-mode session *)
Module LearningInterface.

Definition morseCodeMap_literal : list (string * string) :=
  [ ("A", ".-"); ("B", "-..."); ("C", "-.-."); ("D", "-.."); ("E", ".");
    ("F", "..-."); ("G", "--."); ("H", "...."); ("I", ".."); ("J", ".---");
    ("K", "-.-"); ("L", ".-.."); ("M", "--"); ("N", "-."); ("O", "---");
    ("P", ".--."); ("Q", "--.-"); ("R", ".-."); ("S", "..."); ("T", "-");
    ("U", "..-"); ("V", "...-"); ("W", ".--"); ("X", "-..-"); ("Y", "-.--");
    ("Z", "--..") ].

Definition morseCodeMap : gmap string string :=
  list_to_map morseCodeMap_literal.

(** [Object.keys(morseCodeMap)]: no key is integer-like, so the keys come
    in the order of the literal. *)
Definition learningSequence : list string := morseCodeMap_literal.*1.

Inductive ValidationState := idle | correct | incorrect.

(** The [useState] cells of the component, once mounted. *)
Record State := {
  currentItemIndex : nat;
  validationState : ValidationState;
  feedbackMessage : string
}.

(** The component, its [MorseInput] child (absent when nothing is
    rendered for it: [morseInputRef.current] is then [null]) and the
    timer table. *)
Record World := {
  ui : State;
  input : option MorseInput.State;
  timers : Timers.t
}.

(** [learningSequence[i]], [undefined] out of range. *)
Definition itemAt (i : nat) : option string := learningSequence !! i.

(** [morseCodeMap[currentItem]] *)
Definition expectedAt (i : nat) : option string :=
  itemAt i ≫= λ item, morseCodeMap !! item.

Definition currentItem (w : World) : option string :=
  itemAt (currentItemIndex (ui w)).

(** [morseInputRef.current?.f()] *)
Definition withInput (f : MorseInput.Config → MorseInput.Config) (w : World) : World :=
  match input w with
  | Some s =>
      let '(s', ts') := f (s, timers w) in
      {| ui := ui w; input := Some s'; timers := ts' |}
  | None => w
  end.

Definition setFeedback (v : ValidationState) (msg : string) (w : World) : World :=
  {| ui := {| currentItemIndex := currentItemIndex (ui w);
              validationState := v; feedbackMessage := msg |};
     input := input w; timers := timers w |}.

Definition later (cb : Callback) (delay now : Z) (w : World) : World :=
  {| ui := ui w; input := input w;
     timers := (Timers.setTimeout cb delay now (timers w)).2 |}.

(** The closure of [handleInputComplete] created by the render at index
    [captured], called with [inputMorse]. *)
Definition handleInputComplete (captured : nat) (inputMorse : string)
    (now : Z) (w : World) : World :=
  match itemAt captured with
  | None => w
  | Some _ =>
      if decide (Some inputMorse = expectedAt captured) then
        later (Advance captured) 800 now (setFeedback correct "Correct!" w)
      else
        later Retry 1500 now
          (setFeedback incorrect
             ("Incorrect. Expected: " +:+ default "undefined" (expectedAt captured)) w)
  end.

(** The commit after [currentItemIndex] changed: the [key] of the child
    changed, so the old instance is unmounted (its cleanup runs
    [clearTimers]) and a new one is mounted when there is a current item. *)
Definition remount (now : Z) (w : World) : World :=
  let w1 := withInput MorseInput.clearTimers w in
  {| ui := ui w1;
     input := match currentItem w1 with
              | Some _ => Some (MorseInput.mount now)
              | None => None
              end;
     timers := timers w1 |}.

(** The effect on [currentItemIndex]. *)
Definition itemChanged (now : Z) (w : World) : World :=
  withInput (MorseInput.clearInput now) (setFeedback idle EmptyString w).

(** The timer armed after a correct answer. *)
Definition advance (captured : nat) (now : Z) (w : World) : World :=
  if decide (captured < length learningSequence - 1)%nat then
    let w1 :=
      {| ui := {| currentItemIndex := S (currentItemIndex (ui w));
                  validationState := idle; feedbackMessage := EmptyString |};
         input := input w; timers := timers w |} in
    let w2 := withInput (MorseInput.clearInput now) w1 in
    itemChanged now (remount now w2)
  else
    setFeedback (validationState (ui w))
      "Congratulations! You completed all letters." w.

(** The timer armed after an incorrect answer. *)
Definition retry (now : Z) (w : World) : World :=
  withInput (MorseInput.clearInput now) (setFeedback idle EmptyString w).

(** The session at mount. *)
Definition mount (now : Z) : World :=
  {| ui := {| currentItemIndex := 0; validationState := idle;
              feedbackMessage := EmptyString |};
     input := Some (MorseInput.mount now);
     timers := Timers.empty |}.

Inductive Event :=
| Press
| Release
| Fire (id : positive).

(** The delayed callback [cb], taken off the table [ts], runs in [w]. *)
Definition fire (cb : Callback) (ts : Timers.t) (now : Z) (w : World) : option World :=
  let w0 := {| ui := ui w; input := input w; timers := ts |} in
  match cb with
  | CharTimeout h =>
      s ← input w0;
      let '(s', out) := MorseInput.charTimeout h s in
      let w1 := match out with
                | Some (h', code) => handleInputComplete h' code now w0
                | None => w0
                end in
      Some {| ui := ui w1; input := Some s'; timers := timers w1 |}
  | Advance i => Some (advance i now w0)
  | Retry => Some (retry now w0)
  end.

(** One event at time [now]; [None] when it cannot happen: no button is
    rendered, or no such timer is due. The button handlers are those of
    the latest render. *)
Definition step (now : Z) (e : Event) (w : World) : option World :=
  match e with
  | Press =>
      _ ← input w; Some (withInput (MorseInput.handlePressStart now) w)
  | Release =>
      _ ← input w;
      Some (withInput (MorseInput.handlePressEnd (currentItemIndex (ui w)) now) w)
  | Fire id =>
      '(cb, ts) ← Timers.take id now (timers w);
      fire cb ts now w
  end.

Fixpoint run (clock : Z) (evs : list (Z * Event)) (w : World) : option World :=
  match evs with
  | [] => Some w
  | (now, e) :: evs' =>
      if decide (clock ≤ now) then step now e w ≫= run now evs' else None
  end.

(** *** A learner who answers every letter correctly *)

(** The events of one symbol from time [t]: a press held 100ms for a dit
    and 300ms for a dah; the release time. *)
Definition symbolEvents (c : ascii) (t : Z) : list (Z * Event) * Z :=
  let d := if Ascii.eqb c "." then 100 else 300 in
  ([(t, Press); (t + d, Release)], t + d).

(** The events of the symbols of [code] from time [t], 100ms apart;
    the time of the last release and the number of releases. *)
Fixpoint symbolsEvents (code : string) (t : Z) : list (Z * Event) * Z * positive :=
  match code with
  | EmptyString => ([], t, 1%positive)
  | String c EmptyString =>
      let '(evs, r) := symbolEvents c t in (evs, r, 1%positive)
  | String c code' =>
      let '(evs, r) := symbolEvents c t in
      let '(evs', r', n) := symbolsEvents code' (r + 100) in
      (evs ++ evs', r', Pos.succ n)
  end.

(** Answering [code] from time [t], when [id] is the next timer handle:
    the symbols, the quiet period after which the last character timer
    (handle [id + n - 1]) fires, and the 800ms after which the advance
    timer (handle [id + n]) fires. *)
Definition answerEvents (code : string) (t : Z) (id : positive)
  : list (Z * Event) * Z * positive :=
  let '(evs, r, n) := symbolsEvents code t in
  let done := r + MorseInput.interCharSpace in
  (evs ++ [(done, Fire (Pos.pred (id + n))); (done + 800, Fire (id + n)%positive)],
   done + 900, (id + n + 1)%positive).

Fixpoint answersEvents (codes : list string) (t : Z) (id : positive)
  : list (Z * Event) :=
  match codes with
  | [] => []
  | code :: codes' =>
      let '(evs, t', id') := answerEvents code t id in
      evs ++ answersEvents codes' t' id'
  end.

(** All of A to Z answered correctly, from time [1000]. *)
Definition allCorrect : list (Z * Event) :=
  answersEvents (morseCodeMap_literal.*2) 1000 1%positive.

(** *** A learner who answers A twice within the delay of the advance
    A dit keyed alone completes as ["."] (incorrect, retry timer 2); a dah
    added to it completes as [".-"] (correct, advance timer 4, due at 3800);
    the retry timer clears the buffer at 3050; [".-"] keyed again at once
    completes at 3740 (correct, advance timer 7, due at 4540). Each timer
    fires when it is due. *)
Definition staleAdvance : list (Z * Event) :=
  [ (1000, Press); (1100, Release); (1550, Fire 1);
    (2300, Press); (2550, Release); (3000, Fire 3);
    (3050, Fire 2);
    (3050, Press); (3060, Release); (3061, Press); (3290, Release);
    (3740, Fire 6) ].

Definition afterStaleAdvance : World :=
  default (mount 0) (run 0 staleAdvance (mount 0)).




End LearningInterface.

(** ** The vocabulary of the specification *)
Module Spec.

(** Encoding a word: uppercase it, take the code of each character that
    has one, join the codes with a single space. *)
Definition encodeWord (word : string) : string :=
  JS.join " "
    (omap MorseConverter.encode (JS.split_chars (JS.toUpperCase word))).

(** A non-empty string of the letters A to Z. *)
Definition lettersOnly (text : string) : Prop :=
  text ≠ EmptyString ∧
  ∀ c : ascii, c ∈ String.list_ascii_of_string text →
    (65 ≤ N_of_ascii c ≤ 90)%N.

(** A string of dits and dahs. *)
Definition symbolsOnly (buffer : string) : Prop :=
  ∀ c : ascii, c ∈ String.list_ascii_of_string buffer → c = "."%char ∨ c = "-"%char.

(** The code of a character: a non-empty string of dits and dahs. *)
Definition isCode (code : string) : Prop :=
  code ≠ EmptyString ∧ symbolsOnly code.

End Spec.

(** ** The invariant of the decoder

    What holds of a mounted [MorseInput] with a timer table of its own: the
    table holds at most the timer the component remembers in [charTimer],
    armed by the last release; while it is pending the buffer is not empty
    and no press is under way; the displayed [rawInput] is the buffer. *)
Module Invariants.
Import MorseInput.

Record decoderInvariant (c : Config) : Prop := {
  inv_single : ∀ id tm,
    Timers.pending c.2 !! id = Some tm → charTimer c.1 = Some id;
  inv_due : ∀ id tm,
    Timers.pending c.2 !! id = Some tm →
    Timers.due tm = lastReleaseTime c.1 + interCharSpace ∧
    is_char (Timers.callback tm) = true;
  inv_armed : ∀ id tm,
    Timers.pending c.2 !! id = Some tm →
    currentMorseChar c.1 ≠ EmptyString ∧ pressStartTime c.1 = None;
  inv_fresh : ∀ id tm,
    Timers.pending c.2 !! id = Some tm → (id < Timers.nextId c.2)%positive;
  inv_symbols : Spec.symbolsOnly (currentMorseChar c.1);
  inv_display : rawInput c.1 = currentMorseChar c.1;
  inv_pressing : isPressing c.1 = bool_decide (is_Some (pressStartTime c.1))
}.

(** The decoder of the session: its buffer holds dits and dahs and is what
    is displayed; it is rendered exactly when there is a current item. *)
Definition bufferOK (s : MorseInput.State) : Prop :=
  Spec.symbolsOnly (MorseInput.currentMorseChar s) ∧
  MorseInput.rawInput s = MorseInput.currentMorseChar s.

Definition sessionInvariant (w : LearningInterface.World) : Prop :=
  (is_Some (LearningInterface.input w)
   ↔ is_Some (LearningInterface.currentItem w)) ∧
  ∀ s, LearningInterface.input w = Some s → bufferOK s.

(** Every pending completion timer was armed by the decoder on screen, for
    the item on screen. *)
Definition completionsCurrent (w : LearningInterface.World) : Prop :=
  ∀ id tm h,
    Timers.pending (LearningInterface.timers w) !! id = Some tm →
    Timers.callback tm = CharTimeout h →
    h = LearningInterface.currentItemIndex (LearningInterface.ui w) ∧
    ∃ s, LearningInterface.input w = Some s ∧ MorseInput.charTimer s = Some id.

(** [f] leaves the timers as they were, but for the one remembered in
    [charTimer], which it may cancel. *)
Definition cancels (f : MorseInput.Config → MorseInput.Config) : Prop :=
  ∀ c id tm,
    Timers.pending (f c).2 !! id = Some tm →
    Timers.pending c.2 !! id = Some tm ∧ MorseInput.charTimer c.1 ≠ Some id.




End Invariants.

(** * Properties *)

(** ** The table and the word encoder *)

Section Table.
Import MorseConverter.

Lemma literal_of_lookup char code :
  morseCodeMap !! char = Some code → (char, code) ∈ morseCodeMap_literal.
Proof. apply elem_of_list_to_map_2. Qed.

Lemma literal_keys_NoDup : NoDup morseCodeMap_literal.*1.
Proof. apply (bool_decide_unpack _). by vm_compute. Qed.

Lemma lookup_of_literal char code :
  (char, code) ∈ morseCodeMap_literal → morseCodeMap !! char = Some code.
Proof. apply elem_of_list_to_map_1, literal_keys_NoDup. Qed.

(** No character is encoded by the empty string, so that filtering the
    empty strings out drops exactly the characters without a code. *)
Lemma code_not_empty char code :
  morseCodeMap !! char = Some code → code ≠ EmptyString.
Proof.
  intros Hin%literal_of_lookup.
  assert (Forall (λ kv, kv.2 ≠ EmptyString) morseCodeMap_literal) as Hall
    by (apply (bool_decide_unpack _); by vm_compute).
  rewrite Forall_forall in Hall. apply (Hall _ Hin).
Qed.

Lemma truthy_not_empty s : JS.truthy s = true ↔ s ≠ EmptyString.
Proof. destruct s; simpl; split; congruence. Qed.

Lemma filter_or_else_omap (m : gmap string string) (chars : list string) :
  (∀ char code, m !! char = Some code → code ≠ EmptyString) →
  filter (λ code, code ≠ EmptyString)
    ((λ char, JS.or_else (m !! char) EmptyString) <$> chars)
  = omap (λ char, m !! char) chars.
Proof.
  intros Hm. induction chars as [|char chars IH]; [done|].
  rewrite fmap_cons. cbn [omap list_omap].
  destruct (m !! char) as [code|] eqn:Hc; cbn [JS.or_else].
  - pose proof (Hm _ _ Hc) as Hne.
    apply truthy_not_empty in Hne as Ht. rewrite Ht.
    rewrite filter_cons_True by done. by rewrite IH.
  - rewrite filter_cons_False by (intros ?; done). by rewrite IH.
Qed.

Lemma reverse_of_snoc entries kv :
  reverse_of (entries ++ [kv]) = <[kv.2 := kv.1]> (reverse_of entries).
Proof. unfold reverse_of. by rewrite foldl_app. Qed.

(** When no code occurs twice, the reversed table holds exactly the
    swapped entries, in whatever order they were visited. *)
Lemma reverse_of_lookup entries code char :
  NoDup entries.*2 →
  reverse_of entries !! code = Some char ↔ (char, code) ∈ entries.
Proof.
  induction entries as [|[k v] entries IH] using rev_ind; intros Hnd.
  - unfold reverse_of; simpl. rewrite lookup_empty. set_solver.
  - rewrite fmap_app in Hnd. apply NoDup_app in Hnd as (Hnd & Hnot & _).
    rewrite reverse_of_snoc, lookup_insert_Some, elem_of_app,
      list_elem_of_singleton, (IH Hnd). simpl. split.
    + intros [[-> ->]|[_ ?]]; auto.
    + intros [Hin|[= -> ->]]; [|by left]. right. split; [|done].
      intros ->. apply (Hnot code); [|by constructor].
      apply list_elem_of_fmap. by exists (char, code).
Qed.

Lemma codes_NoDup : NoDup (map_to_list morseCodeMap).*2.
Proof. apply (bool_decide_unpack _). by vm_compute. Qed.

Lemma decode_iff_encode code char :
  decode code = Some char ↔ encode char = Some code.
Proof.
  unfold decode, encode, reverseMorseCodeMap.
  rewrite (reverse_of_lookup _ _ _ codes_NoDup).
  apply elem_of_map_to_list.
Qed.

(** The order in which [Object.entries] lists the table is immaterial. *)
Lemma reverse_of_any_order entries :
  entries ≡ₚ map_to_list morseCodeMap →
  reverse_of entries = reverseMorseCodeMap.
Proof.
  intros Hp. apply map_eq. intros code. apply option_eq. intros char.
  unfold reverseMorseCodeMap.
  rewrite !reverse_of_lookup; [by rewrite Hp|apply codes_NoDup|].
  rewrite Hp. apply codes_NoDup.
Qed.

Lemma roundtrip_words_literal :
  Forall (λ kv, wordToMorse (morseToWord kv.2) = kv.2) morseCodeMap_literal.
Proof. apply (bool_decide_unpack _). by vm_compute. Qed.

End Table.

(** Claim C6. For every word, [wordToMorse] is the encoding of the
    specification: the word is uppercased, each character is mapped to its
    code in the table, the characters without a code are dropped and the
    codes are joined by single spaces. [wordToMorse("SOS")] is
    ["... --- ..."] and the empty word gives the empty string; the
    lower-case ["sos"] has the encoding of ["SOS"], and in ["s o#S"] the
    space and the ["#"], which have no code, are dropped. *)
Theorem wordToMorse_drops_and_joins :
  (∀ word, MorseConverter.wordToMorse word = Spec.encodeWord word) ∧
  MorseConverter.wordToMorse "SOS" = "... --- ..." ∧
  MorseConverter.wordToMorse EmptyString = EmptyString ∧
  MorseConverter.wordToMorse "sos" = "... --- ..." ∧
  MorseConverter.wordToMorse "s o#S" = "... --- ...".
Proof.
  split; [|split_and!; by vm_compute].
  intros word. unfold MorseConverter.wordToMorse, Spec.encodeWord.
  destruct word as [|c word]; [done|].
  cbn [JS.truthy negb]. f_equal.
  apply filter_or_else_omap, code_not_empty.
Qed.

(** Claim C5. Every code of the table decodes to the character it encodes,
    so that encoding the decoded character gives the code back; through the
    string functions, [wordToMorse(morseToWord(code))] is [code]. The
    converter's table has no entry for the space. *)
Theorem encode_decode_roundtrip (char code : string) :
  MorseConverter.encode char = Some code →
  MorseConverter.decode code = Some char ∧
  (MorseConverter.decode code ≫= MorseConverter.encode) = Some code ∧
  MorseConverter.wordToMorse (MorseConverter.morseToWord code) = code ∧
  char ≠ " ".
Proof.
  intros Henc. pose proof Henc as Hdec%decode_iff_encode.
  rewrite Hdec. cbn [mbind option_bind]. split_and!; [done|done| |].
  - apply literal_of_lookup in Henc.
    pose proof roundtrip_words_literal as Hall.
    rewrite Forall_forall in Hall. apply (Hall _ Henc).
  - intros ->. by vm_compute in Henc.
Qed.

Lemma encode_decode_roundtrip_witness :
  MorseConverter.decode "..." = Some "S" ∧
  MorseConverter.wordToMorse (MorseConverter.morseToWord "...") = "...".
Proof.
  destruct (encode_decode_roundtrip "S" "..." eq_refl) as (H1 & _ & H2 & _).
  split; [exact H1|exact H2].
Defined.

(** ** The loader of the word mode *)

Section Loader.
Import LearnWords.

Lemma is_upper_spec c : JS.is_upper c = true ↔ (65 ≤ N_of_ascii c ≤ 90)%N.
Proof. unfold JS.is_upper. by rewrite andb_true_iff, !N.leb_le. Qed.

Lemma all_upper_spec s :
  JS.all_upper s = true ↔
  ∀ c, c ∈ String.list_ascii_of_string s → (65 ≤ N_of_ascii c ≤ 90)%N.
Proof.
  induction s as [|a s IH]; simpl.
  - split; [|done]. by intros _ c ?%elem_of_nil.
  - rewrite andb_true_iff, IH, is_upper_spec. split.
    + intros [Ha Hs] c [->|?]%elem_of_cons; auto.
    + intros H. split; [|intros c Hc]; apply H; by constructor.
Qed.

(** The regular expression [/^[A-Z]+$/] accepts the non-empty strings of
    the letters A to Z. *)
Lemma test_AZ_plus_spec s : JS.test_AZ_plus s = true ↔ Spec.lettersOnly s.
Proof.
  unfold Spec.lettersOnly. rewrite <- all_upper_spec.
  destruct s; simpl; [|by intuition]. split; [done|]. by intros [? _].
Qed.

Lemma includes_cons needle a s :
  JS.includes needle (String a s)
  = String.prefix needle (String a s) || JS.includes needle s.
Proof. done. Qed.

Lemma prefix_one c a s :
  String.prefix (String c EmptyString) (String a s)
  = if ascii_dec c a then true else false.
Proof. cbn [String.prefix]. destruct (ascii_dec c a); [by destruct s|done]. Qed.

(** The third test of the loader, [text.includes(' ')], never decides: a
    string of letters holds no space. *)
Lemma all_upper_no_space s : JS.all_upper s = true → JS.includes " " s = false.
Proof.
  induction s as [|a s IH]; [done|]. cbn [JS.all_upper].
  intros [Ha Hs]%andb_true_iff.
  rewrite includes_cons, (IH Hs), orb_false_r, prefix_one.
  by destruct (ascii_dec " " a) as [<-|Hne].
Qed.

Lemma loader_Text apiKey payload :
  JS.truthy (default EmptyString apiKey) = true →
  loader apiKey (Text payload) =
  let text := JS.toUpperCase (JS.trim payload) in
  if JS.test_AZ_plus text then {| word := text; error := None |}
  else {| word := "HELLO";
          error := Some "Received invalid word format, using default." |}.
Proof.
  intros Hkey. unfold loader. rewrite Hkey. cbn [negb]. cbv zeta.
  destruct (JS.test_AZ_plus _) eqn:Ht.
  - assert (JS.all_upper (JS.toUpperCase (JS.trim payload)) = true) as Hu
      by (by destruct (JS.toUpperCase (JS.trim payload))).
    rewrite (all_upper_no_space _ Hu).
    by destruct (JS.toUpperCase (JS.trim payload)).
  - by rewrite orb_true_r.
Qed.

End Loader.

(** Claim C3. With an API key configured, the loader accepts the payload of
    the generator exactly when, trimmed and uppercased, it is a non-empty
    string of the letters A to Z (hence without white space), and then
    returns it with a null error; every other payload gives the fixed word
    ["HELLO"] and every failure of the generator the fixed word ["MORSE"],
    each with a non-null message. The loader is a total function: it has a
    result in every case. The payload ["hello world"] is rejected. *)
Theorem loader_accepts_letters_only apiKey outcome :
  JS.truthy (default EmptyString apiKey) = true →
  match outcome with
  | LearnWords.Text payload =>
      let text := JS.toUpperCase (JS.trim payload) in
      (Spec.lettersOnly text →
         LearnWords.loader apiKey outcome
         = {| LearnWords.word := text; LearnWords.error := None |}) ∧
      (¬ Spec.lettersOnly text →
         LearnWords.loader apiKey outcome
         = {| LearnWords.word := "HELLO";
              LearnWords.error :=
                Some "Received invalid word format, using default." |})
  | LearnWords.Throws message =>
      LearnWords.word (LearnWords.loader apiKey outcome) = "MORSE" ∧
      is_Some (LearnWords.error (LearnWords.loader apiKey outcome))
  end ∧
  LearnWords.loader apiKey (LearnWords.Text "hello world")
  = {| LearnWords.word := "HELLO";
       LearnWords.error :=
         Some "Received invalid word format, using default." |}.
Proof.
  intros Hkey. split.
  - destruct outcome as [payload|message].
    + rewrite (loader_Text _ _ Hkey). cbv zeta.
      rewrite <- test_AZ_plus_spec. by destruct (JS.test_AZ_plus _).
    + unfold LearnWords.loader. rewrite Hkey. simpl. eauto.
  - rewrite (loader_Text _ _ Hkey). by vm_compute.
Qed.

Lemma loader_accepts_letters_only_witness :
  LearnWords.loader (Some "key") (LearnWords.Text " morse ")
  = {| LearnWords.word := "MORSE"; LearnWords.error := None |} ∧
  LearnWords.loader (Some "key") (LearnWords.Text "hello world")
  = {| LearnWords.word := "HELLO";
       LearnWords.error :=
         Some "Received invalid word format, using default." |}.
Proof.
  destruct (loader_accepts_letters_only (Some "key")
              (LearnWords.Text " morse ") eq_refl) as [[Hok _] Hhello].
  split; [|exact Hhello]. apply Hok, test_AZ_plus_spec. reflexivity.
Defined.

(** ** The timing decoder *)

Section Decoder.
Import MorseInput Invariants.

Lemma symbolsOnly_empty : Spec.symbolsOnly EmptyString.
Proof. intros c Hc. by apply elem_of_nil in Hc. Qed.

Lemma list_ascii_app s1 s2 :
  String.list_ascii_of_string (s1 +:+ s2)
  = String.list_ascii_of_string s1 ++ String.list_ascii_of_string s2.
Proof. induction s1 as [|a s1 IH]; simpl; [done|by rewrite IH]. Qed.

Lemma symbolsOnly_app s1 s2 :
  Spec.symbolsOnly s1 → Spec.symbolsOnly s2 → Spec.symbolsOnly (s1 +:+ s2).
Proof.
  intros H1 H2 c. rewrite list_ascii_app, elem_of_app. intros [?|?]; auto.
Qed.

Lemma symbolsOnly_classify d : Spec.symbolsOnly (classify d).
Proof.
  unfold classify. intros c.
  destruct (negb _); simpl; rewrite list_elem_of_singleton; auto.
Qed.

Lemma append_empty_r s : s +:+ EmptyString = s.
Proof.
  induction s as [|a s IH]; [done|].
  change (String a (s +:+ EmptyString) = String a s). by rewrite IH.
Qed.

Lemma app_not_empty s1 s2 : s2 ≠ EmptyString → s1 +:+ s2 ≠ EmptyString.
Proof. destruct s1, s2; cbv; congruence. Qed.

Lemma classify_not_empty d : classify d ≠ EmptyString.
Proof. unfold classify. by destruct (negb _). Qed.

(** Cancelling the timer the component remembers empties the table when the
    table holds no other timer. *)
Lemma clearTimers_pending c :
  (∀ id tm, Timers.pending c.2 !! id = Some tm → charTimer c.1 = Some id) →
  Timers.pending (clearTimers c).2 = ∅.
Proof.
  destruct c as [s ts]. simpl. intros Hone. apply map_eq. intros i.
  rewrite lookup_empty. destruct (charTimer s) as [id|] eqn:Hid; simpl.
  - destruct (decide (i = id)) as [->|Hne].
    + by rewrite lookup_delete_eq.
    + rewrite lookup_delete_ne by done.
      destruct (Timers.pending ts !! i) as [tm|] eqn:Hi; [|done].
      apply Hone in Hi. congruence.
  - destruct (Timers.pending ts !! i) as [tm|] eqn:Hi; [|done].
    apply Hone in Hi. congruence.
Qed.

Lemma clearTimers_state c :
  (clearTimers c).1 =
  {| rawInput := rawInput c.1; isPressing := isPressing c.1;
     pressStartTime := pressStartTime c.1;
     lastReleaseTime := lastReleaseTime c.1; charTimer := None;
     currentMorseChar := currentMorseChar c.1 |}.
Proof. by destruct c. Qed.

Lemma clearTimers_nextId c : Timers.nextId (clearTimers c).2 = Timers.nextId c.2.
Proof. destruct c as [s ts]. simpl. by destruct (charTimer s). Qed.

Lemma invariant_mount now : decoderInvariant (mount now, Timers.empty).
Proof.
  split; simpl; try done; try (intros ?? Hl; by rewrite lookup_empty in Hl).
  apply symbolsOnly_empty.
Qed.

Lemma invariant_handlePressStart now c :
  decoderInvariant c → decoderInvariant (handlePressStart now c).
Proof.
  intros [H1 H2 H3 H4 H5 H6 H7]. unfold handlePressStart.
  pose proof (clearTimers_pending c H1) as He.
  pose proof (clearTimers_state c) as Hs.
  destruct (clearTimers c) as [s ts]; simpl in *. subst s.
  split; simpl; try done; intros ?? Hl; by rewrite He, lookup_empty in Hl.
Qed.

Lemma invariant_clearInput now c :
  decoderInvariant c → decoderInvariant (clearInput now c).
Proof.
  intros [H1 H2 H3 H4 H5 H6 H7]. unfold clearInput.
  pose proof (clearTimers_pending c H1) as He.
  pose proof (clearTimers_state c) as Hs.
  destruct (clearTimers c) as [s ts]; simpl in *. subst s.
  split; simpl; try done; try (intros ?? Hl; by rewrite He, lookup_empty in Hl).
  apply symbolsOnly_empty.
Qed.

Lemma handlePressEnd_Some h now c start :
  pressStarted c.1 = Some start →
  handlePressEnd h now c =
  ({| rawInput := rawInput c.1 +:+ classify (now - start); isPressing := false;
      pressStartTime := None; lastReleaseTime := now;
      charTimer := Some (Timers.nextId c.2);
      currentMorseChar := currentMorseChar c.1 +:+ classify (now - start) |},
   {| Timers.pending :=
        <[Timers.nextId c.2 :=
            {| Timers.due := now + interCharSpace;
               Timers.callback := CharTimeout h |}]>
          (Timers.pending (clearTimers c).2);
      Timers.nextId := Pos.succ (Timers.nextId c.2) |}).
Proof.
  intros Hp. unfold handlePressEnd. rewrite Hp.
  destruct c as [s ts]. simpl. by destruct (charTimer s).
Qed.

Lemma invariant_handlePressEnd h now c :
  decoderInvariant c → decoderInvariant (handlePressEnd h now c).
Proof.
  intros Hinv. destruct (pressStarted c.1) as [start|] eqn:Hp.
  - rewrite (handlePressEnd_Some _ _ _ _ Hp).
    destruct Hinv as [H1 H2 H3 H4 H5 H6 H7].
    rewrite (clearTimers_pending c H1).
    split; simpl.
    + intros id tm [[<- _]|[_ Hl]]%lookup_insert_Some; [done|].
      by rewrite lookup_empty in Hl.
    + intros id tm [[_ <-]|[_ Hl]]%lookup_insert_Some; [done|].
      by rewrite lookup_empty in Hl.
    + intros _ _ _. split; [|done]. apply app_not_empty, classify_not_empty.
    + intros id tm [[<- _]|[_ Hl]]%lookup_insert_Some; [lia|].
      by rewrite lookup_empty in Hl.
    + apply symbolsOnly_app; [done|apply symbolsOnly_classify].
    + by rewrite H6.
    + done.
  - unfold handlePressEnd. by rewrite Hp.
Qed.

Lemma take_Some id now ts cb ts' :
  Timers.take id now ts = Some (cb, ts') →
  ∃ tm, Timers.pending ts !! id = Some tm ∧ Timers.due tm ≤ now ∧
        cb = Timers.callback tm ∧ ts' = Timers.clearTimeout id ts.
Proof.
  unfold Timers.take. destruct (Timers.pending ts !! id) as [tm|]; [|done].
  destruct (decide _); [|done]. intros [= <- <-]. by exists tm.
Qed.

Lemma step_TimerFires h now id c c' out :
  step h now (TimerFires id) c = Some (c', out) →
  ∃ tm h', Timers.pending c.2 !! id = Some tm ∧ Timers.due tm ≤ now ∧
    Timers.callback tm = CharTimeout h' ∧
    c' = ((charTimeout h' c.1).1, Timers.clearTimeout id c.2) ∧
    out = completeInputSequence h' c.1.
Proof.
  simpl. destruct (Timers.take id now c.2) as [[cb ts']|] eqn:Ht; [|done].
  apply take_Some in Ht as (tm & Hl & Hd & -> & ->).
  destruct (Timers.callback tm) as [h'| |] eqn:Hcb; try done.
  intros [= <- <-]. by exists tm, h'.
Qed.

Lemma invariant_step h now e c c' out :
  decoderInvariant c → step h now e c = Some (c', out) → decoderInvariant c'.
Proof.
  intros Hinv Hstep. destruct e.
  - injection Hstep as <- _. by apply invariant_handlePressStart.
  - injection Hstep as <- _. by apply invariant_handlePressEnd.
  - apply step_TimerFires in Hstep as (tm & h' & Hl & _ & _ & -> & _).
    destruct Hinv as [H1 H2 H3 H4 H5 H6 H7].
    assert (∀ i tm', Timers.pending (Timers.clearTimeout id c.2) !! i = Some tm'
              → False) as Hempty.
    { simpl. intros i tm' [Hne Hi]%lookup_delete_Some.
      apply H1 in Hi. apply H1 in Hl. congruence. }
    split; simpl; try done; intros i tm' Hi; destruct (Hempty _ _ Hi).
  - injection Hstep as <- _. by apply invariant_clearInput.
Qed.

Lemma invariant_Reachable now c : Reachable now c → decoderInvariant c.
Proof.
  induction 1 as [now|h clock now e c c' out _ IH _ Hstep].
  - apply invariant_mount.
  - by apply (invariant_step h now e c c' out).
Qed.

Lemma classify_threshold d : classify d = if decide (d < 225) then "." else "-".
Proof.
  unfold classify, symbolSpaceThreshold, Qle_bool, ditDuration. simpl.
  destruct (_ <=? _) eqn:E; [apply Z.leb_le in E|apply Z.leb_gt in E];
    destruct (decide (d < 225)); simpl; try done; lia.
Qed.

Lemma pressStarted_handlePressStart now c :
  now ≠ 0 → pressStarted (handlePressStart now c).1 = Some now.
Proof.
  intros Hnow. unfold handlePressStart. destruct (clearTimers c) as [s ts].
  unfold pressStarted. simpl. by destruct (decide (now = 0)).
Qed.

Lemma handlePressStart_buffer now c :
  currentMorseChar (handlePressStart now c).1 = currentMorseChar c.1 ∧
  rawInput (handlePressStart now c).1 = rawInput c.1.
Proof.
  unfold handlePressStart. pose proof (clearTimers_state c) as Hs.
  destruct (clearTimers c) as [s ts]. simpl in *. by subst s.
Qed.

Lemma completeInputSequence_Some h s h' code :
  completeInputSequence h s = Some (h', code) →
  h' = h ∧ code = currentMorseChar s ∧ code ≠ EmptyString.
Proof.
  unfold completeInputSequence. destruct (currentMorseChar s); simpl; [done|].
  by intros [= <- <-].
Qed.

Lemma step_emits_not_empty h now e c c' h' code :
  step h now e c = Some (c', Some (h', code)) →
  code = currentMorseChar c.1 ∧ code ≠ EmptyString.
Proof.
  destruct e; try (by intros [= _]).
  intros (tm & h0 & _ & _ & _ & _ & Hout)%step_TimerFires.
  symmetry in Hout. by apply completeInputSequence_Some in Hout as (_ & ? & ?).
Qed.

(** Claim C1. A release that ends a press started at [start] appends one
    symbol to the buffer and to the displayed input: the dit ["."] when the
    press lasted strictly less than 225ms, the dah ["-"] when it lasted
    225ms or more. The threshold [symbolSpaceThreshold] is 1.5 times
    [ditDuration], that is 225 for the [ditDuration] of 150. *)
Theorem handlePressEnd_classifies_by_threshold h now c start :
  pressStarted c.1 = Some start →
  ∃ symbol,
    currentMorseChar (handlePressEnd h now c).1 = currentMorseChar c.1 +:+ symbol ∧
    rawInput (handlePressEnd h now c).1 = rawInput c.1 +:+ symbol ∧
    (now - start < 225 → symbol = ".") ∧
    (225 ≤ now - start → symbol = "-") ∧
    (symbolSpaceThreshold == 1.5 * inject_Z ditDuration)%Q ∧
    (symbolSpaceThreshold == 225)%Q.
Proof.
  intros Hp. exists (classify (now - start)).
  rewrite (handlePressEnd_Some _ _ _ _ Hp). simpl.
  rewrite classify_threshold. split_and!; try done.
  - intros. by rewrite decide_True.
  - intros. by rewrite decide_False by lia.
Qed.

Lemma handlePressEnd_classifies_by_threshold_witness :
  currentMorseChar
    (handlePressEnd 0 1100 (handlePressStart 1000 (mount 0, Timers.empty))).1 = "." ∧
  currentMorseChar
    (handlePressEnd 0 1225 (handlePressStart 1000 (mount 0, Timers.empty))).1 = "-".
Proof.
  split.
  - destruct (handlePressEnd_classifies_by_threshold 0 1100
                (handlePressStart 1000 (mount 0, Timers.empty)) 1000 eq_refl)
      as (symbol & -> & _ & Hdit & _).
    rewrite Hdit by lia. reflexivity.
  - destruct (handlePressEnd_classifies_by_threshold 0 1225
                (handlePressStart 1000 (mount 0, Timers.empty)) 1000 eq_refl)
      as (symbol & -> & _ & _ & Hdah & _).
    rewrite Hdah by lia. reflexivity.
Defined.


Lemma handlePressStart_pending now c :
  decoderInvariant c → Timers.pending (handlePressStart now c).2 = ∅.
Proof.
  intros Hinv. unfold handlePressStart.
  pose proof (clearTimers_pending c (inv_single _ Hinv)) as He.
  by destruct (clearTimers c) as [s ts].
Qed.

Lemma step_TimerFires_empty h now id c :
  Timers.pending c.2 = ∅ → step h now (TimerFires id) c = None.
Proof.
  intros He. simpl. unfold Timers.take. by rewrite He, lookup_empty.
Qed.

(** Claim C2. In a state reached from mount at most one completion timer
    is pending. When a press at [t1], a release at [t2] and a second press
    at [t3] follow, the second press coming before [interCharSpace] has
    elapsed since the release: the first press leaves no timer pending; the
    release arms exactly one, due at [t2 + interCharSpace]; no timer can
    fire up to [t3]; the second press cancels it, so that none can fire
    after it either; and the buffer has grown by the symbol of the first
    press. *)
Theorem press_cancels_pending_completion h t0 c t1 t2 t3 :
  Reachable t0 c →
  0 < t1 → t2 ≤ t3 → t3 < t2 + interCharSpace →
  let c1 := handlePressStart t1 c in
  let c2 := handlePressEnd h t2 c1 in
  let c3 := handlePressStart t3 c2 in
  (∀ id id' tm tm', Timers.pending c.2 !! id = Some tm →
     Timers.pending c.2 !! id' = Some tm' → id = id') ∧
  Timers.pending c1.2 = ∅ ∧
  (∃ id, Timers.pending c2.2 =
         {[ id := {| Timers.due := t2 + interCharSpace;
                     Timers.callback := CharTimeout h |} ]}) ∧
  (∀ t id, t ≤ t3 → step h t (TimerFires id) c2 = None) ∧
  Timers.pending c3.2 = ∅ ∧
  (∀ t id, step h t (TimerFires id) c3 = None) ∧
  currentMorseChar c3.1 = currentMorseChar c.1 +:+ classify (t2 - t1).
Proof.
  intros Hinv%invariant_Reachable Ht1 Ht23 Hgap c1 c2 c3.
  pose proof (invariant_handlePressStart t1 c Hinv) as Hinv1.
  pose proof (invariant_handlePressEnd h t2 c1 Hinv1) as Hinv2.
  assert (pressStarted c1.1 = Some t1) as Hp
    by (apply pressStarted_handlePressStart; lia).
  pose proof (handlePressStart_pending t1 c Hinv) as He1.
  pose proof (handlePressStart_pending t3 c2 Hinv2) as He3.
  assert (Timers.pending c2.2 =
          {[ Timers.nextId c1.2 :=
               {| Timers.due := t2 + interCharSpace;
                  Timers.callback := CharTimeout h |} ]}) as He2.
  { unfold c2. rewrite (handlePressEnd_Some _ _ _ _ Hp). simpl.
    by rewrite (clearTimers_pending c1 (inv_single _ Hinv1)), insert_empty. }
  split_and!; try done.
  - intros id id' tm tm' Hid Hid'.
    apply (inv_single _ Hinv) in Hid, Hid'. congruence.
  - by eexists.
  - intros t id Ht. simpl. unfold Timers.take. rewrite He2.
    destruct (decide (id = Timers.nextId c1.2)) as [->|Hne].
    + rewrite lookup_singleton_eq. simpl. by rewrite decide_False by lia.
    + by rewrite lookup_singleton_ne.
  - intros t id. by apply step_TimerFires_empty.
  - unfold c3. rewrite (proj1 (handlePressStart_buffer t3 c2)).
    unfold c2. rewrite (handlePressEnd_Some _ _ _ _ Hp). simpl.
    unfold c1. by rewrite (proj1 (handlePressStart_buffer t1 c)).
Qed.

Lemma press_cancels_pending_completion_witness :
  let c2 := handlePressEnd 0 1100 (handlePressStart 1000 (mount 0, Timers.empty)) in
  step 0 1400 (TimerFires 1) c2 = None ∧
  currentMorseChar (handlePressStart 1400 c2).1 = ".".
Proof.
  destruct (press_cancels_pending_completion 0 0 (mount 0, Timers.empty)
              1000 1100 1400 (Reachable_mount 0)
              ltac:(lia) ltac:(lia) ltac:(by vm_compute))
    as (_ & _ & _ & Hquiet & _ & _ & Hbuf).
  split; [apply Hquiet; lia|]. rewrite Hbuf. reflexivity.
Defined.

(** Claim C9. When a completion timer fires, the buffer and the displayed
    input are left as they were, and the code passed to [onInputComplete],
    if any, is the buffer. Every event other than [clearInput] only extends
    the buffer; [clearInput] empties it. *)
Theorem completion_leaves_buffer h now e c c' out :
  step h now e c = Some (c', out) →
  (∀ id, e = TimerFires id →
     currentMorseChar c'.1 = currentMorseChar c.1 ∧
     rawInput c'.1 = rawInput c.1 ∧
     ∀ h' code, out = Some (h', code) → code = currentMorseChar c'.1) ∧
  (e ≠ ClearInput →
     ∃ symbols, currentMorseChar c'.1 = currentMorseChar c.1 +:+ symbols) ∧
  (e = ClearInput → currentMorseChar c'.1 = EmptyString ∧ rawInput c'.1 = EmptyString).
Proof.
  intros Hstep. split_and!.
  - intros id ->.
    apply step_TimerFires in Hstep as (tm & h' & _ & _ & _ & -> & ->). simpl.
    split_and!; try done.
    by intros h0 code (_ & ? & _)%completeInputSequence_Some.
  - intros Hne. destruct e; try done.
    + injection Hstep as <- _. exists EmptyString.
      rewrite (proj1 (handlePressStart_buffer now c)).
      by rewrite append_empty_r.
    + injection Hstep as <- _.
      destruct (pressStarted c.1) as [start|] eqn:Hp.
      * rewrite (handlePressEnd_Some _ _ _ _ Hp). by eexists.
      * unfold handlePressEnd. rewrite Hp. exists EmptyString.
        by rewrite append_empty_r.
    + apply step_TimerFires in Hstep as (tm & h' & _ & _ & _ & -> & _).
      exists EmptyString. simpl. by rewrite append_empty_r.
  - intros ->. injection Hstep as <- _. unfold clearInput.
    by destruct (clearTimers c).
Qed.

Lemma completion_leaves_buffer_witness :
  let c := handlePressEnd 0 1100 (handlePressStart 1000 (mount 0, Timers.empty)) in
  ∃ c', step 0 1550 (TimerFires 1) c = Some (c', Some (0%nat, ".")) ∧
        currentMorseChar c'.1 = ".".
Proof.
  eexists. split; [reflexivity|].
  destruct (completion_leaves_buffer 0 1550 (TimerFires 1)
              (handlePressEnd 0 1100
                 (handlePressStart 1000 (mount 0, Timers.empty))) _ _ eq_refl)
    as [Hfire _].
  exact (proj1 (Hfire 1%positive eq_refl)).
Defined.

(** Claim C10. In every run of the decoder, from any state, each code
    passed to [onInputComplete] is not the empty string; with an empty
    buffer [completeInputSequence] makes no call at all. *)
Theorem completion_is_never_empty h clock evs c c' outs :
  run h clock evs c = Some (c', outs) →
  (∀ h' code, (h', code) ∈ outs → code ≠ EmptyString) ∧
  (∀ s h', currentMorseChar s = EmptyString → completeInputSequence h' s = None).
Proof.
  intros Hrun. split.
  - revert clock c c' outs Hrun.
    induction evs as [|[now e] evs IH]; intros clock c c' outs Hrun; simpl in Hrun.
    + injection Hrun as _ <-. by intros ?? ?%elem_of_nil.
    + destruct (decide (clock ≤ now)); [|done].
      destruct (step h now e c) as [[c1 out]|] eqn:Hstep; [|done].
      simpl in Hrun.
      destruct (run h now evs c1) as [[c2 outs']|] eqn:Hrest; [|done].
      simpl in Hrun. injection Hrun as <- <-.
      intros h' code [Hin|Hin]%elem_of_app; [|by eapply IH].
      destruct out as [[h0 code0]|]; simpl in Hin.
      * apply list_elem_of_singleton in Hin as [= -> ->].
        by apply step_emits_not_empty in Hstep as [_ ?].
      * by apply elem_of_nil in Hin.
  - intros s h' He. unfold completeInputSequence. by rewrite He.
Qed.
Lemma completion_is_never_empty_witness :
  (∃ c', run 0 0 [(1000, PressStart); (1100, PressEnd); (1550, TimerFires 1)]
           (mount 0, Timers.empty) = Some (c', [(0%nat, ".")])) ∧
  completeInputSequence 0 (mount 0) = None.
Proof.
  split; [eexists; reflexivity|].
  exact (proj2 (completion_is_never_empty 0 0
                  [(1000, PressStart); (1100, PressEnd); (1550, TimerFires 1)]
                  (mount 0, Timers.empty) _ _ eq_refl) (mount 0) 0%nat eq_refl).
Defined.

End Decoder.

(** ** The letter-mode session *)

Section Session.
Import LearningInterface.

Lemma withInput_ui f w : ui (withInput f w) = ui w.
Proof.
  unfold withInput. destruct (input w) as [s|]; [|done].
  by destruct (f (s, timers w)).
Qed.

Lemma withInput_input f w :
  input (withInput f w) = (λ s, (f (s, timers w)).1) <$> input w.
Proof.
  unfold withInput. destruct (input w) as [s|] eqn:Hin; simpl; [|done].
  by destruct (f (s, timers w)).
Qed.


Lemma handleInputComplete_index captured code now w :
  currentItemIndex (ui (handleInputComplete captured code now w))
  = currentItemIndex (ui w) ∧
  input (handleInputComplete captured code now w) = input w.
Proof.
  unfold handleInputComplete. destruct (itemAt captured); [|done].
  by destruct (decide _).
Qed.

(** Claim C7, evaluated on the code. After every letter from A to Z has
    been answered correctly, the index stays at 25: the current item is
    still ["Z"], the state is [correct] with the congratulation message and
    no timer is pending, but the decoder is still mounted and its
    completions are still processed: one more press changes the validation
    state to [incorrect]. *)
Theorem complete_still_processes_input :
  ∃ w w', run 0 allCorrect (mount 0) = Some w ∧
    currentItemIndex (ui w) = 25%nat ∧ currentItem w = Some "Z" ∧
    validationState (ui w) = correct ∧
    feedbackMessage (ui w) = "Congratulations! You completed all letters." ∧
    Timers.pending (timers w) = ∅ ∧
    run 0 (allCorrect
             ++ [(100000, Press); (100100, Release); (100550, Fire 109)])
      (mount 0) = Some w' ∧
    currentItemIndex (ui w') = 25%nat ∧
    validationState (ui w') = incorrect ∧
    feedbackMessage (ui w') = "Incorrect. Expected: --..".
Proof.
  eexists _, _. split; [by vm_compute|]. do 5 (split; [by vm_compute|]).
  split; [by vm_compute|]. split_and!; by vm_compute.
Qed.




End Session.

(** ** Strings of codes *)

Section Strings.

Lemma append_cons a s t : String a s +:+ t = String a (s +:+ t).
Proof. done. Qed.

Lemma append_nil_l s : EmptyString +:+ s = s.
Proof. done. Qed.

Lemma append_assoc s t u : (s +:+ t) +:+ u = s +:+ (t +:+ u).
Proof.
  induction s as [|a s IH]; [done|]. by rewrite !append_cons, IH.
Qed.

Lemma symbol_not_space c : c = "."%char ∨ c = "-"%char → JS.is_space c = false.
Proof. by intros [->| ->]. Qed.

Lemma symbolsOnly_cons c s :
  Spec.symbolsOnly (String c s) ↔ (c = "."%char ∨ c = "-"%char) ∧ Spec.symbolsOnly s.
Proof.
  unfold Spec.symbolsOnly. simpl. split.
  - intros H. split; [apply H; by constructor|].
    intros c' Hc'. apply H. by constructor.
  - intros [Hc Hs] c' [->|?]%elem_of_cons; auto.
Qed.

(** A string that ends with a character other than white space is left
    alone by [trimEnd]. *)
Lemma trimEnd_snoc s c :
  JS.is_space c = false →
  JS.trimEnd (s +:+ String c EmptyString) = s +:+ String c EmptyString.
Proof.
  intros Hc. induction s as [|a s IH].
  - change (JS.trimEnd (String c EmptyString) = String c EmptyString).
    cbn [JS.trimEnd]. by rewrite Hc.
  - rewrite append_cons. cbn [JS.trimEnd]. rewrite IH.
    by destruct s.
Qed.

Lemma symbols_snoc s :
  s ≠ EmptyString → Spec.symbolsOnly s →
  ∃ s' c, s = s' +:+ String c EmptyString ∧ JS.is_space c = false.
Proof.
  induction s as [|a s IH]; [done|]. intros _ [Ha Hs]%symbolsOnly_cons.
  destruct s as [|b s].
  - exists EmptyString, a. split; [done|by apply symbol_not_space].
  - destruct (IH ltac:(done) Hs) as (s' & c & -> & Hc).
    exists (String a s'), c. by rewrite append_cons.
Qed.

Lemma join_cons2 sep x y l :
  JS.join sep (x :: y :: l) = x +:+ sep +:+ JS.join sep (y :: l).
Proof. done. Qed.

Lemma join_ends codes :
  codes ≠ [] → Forall Spec.isCode codes →
  ∃ s c, JS.join " " codes = s +:+ String c EmptyString ∧ JS.is_space c = false.
Proof.
  induction codes as [|code codes IH]; [done|]. intros _ Hall.
  apply Forall_cons in Hall as [[Hne Hsym] Hall].
  destruct codes as [|code2 codes].
  - by apply symbols_snoc.
  - destruct (IH ltac:(done) Hall) as (s & c & Hj & Hc).
    exists (code +:+ " " +:+ s), c. split; [|done].
    by rewrite join_cons2, Hj, !append_assoc.
Qed.

Lemma join_starts codes :
  codes ≠ [] → Forall Spec.isCode codes →
  ∃ c s, JS.join " " codes = String c s ∧ JS.is_space c = false.
Proof.
  destruct codes as [|code codes]; [done|]. intros _ Hall.
  apply Forall_cons in Hall as [[Hne Hsym] Hall].
  destruct code as [|c code]; [done|].
  apply symbolsOnly_cons in Hsym as [Hc _].
  exists c. destruct codes as [|code2 codes].
  - exists code. split; [done|by apply symbol_not_space].
  - eexists. rewrite join_cons2, append_cons. split; [done|].
    by apply symbol_not_space.
Qed.

Lemma trim_join codes :
  Forall Spec.isCode codes → JS.trim (JS.join " " codes) = JS.join " " codes.
Proof.
  intros Hall. destruct (decide (codes = [])) as [->|Hne]; [done|].
  destruct (join_starts codes Hne Hall) as (c & s & Hj & Hc).
  destruct (join_ends codes Hne Hall) as (s' & c' & Hj' & Hc').
  unfold JS.trim.
  assert (JS.trimStart (JS.join " " codes) = JS.join " " codes) as ->.
  { rewrite Hj. cbn [JS.trimStart]. by rewrite Hc. }
  rewrite Hj'. by apply trimEnd_snoc.
Qed.

Lemma replace_ws_symbols b code t :
  code ≠ EmptyString → Spec.symbolsOnly code →
  JS.replace_ws_from b (code +:+ t) = code +:+ JS.replace_ws_from false t.
Proof.
  intros Hne Hsym. revert b Hne.
  induction code as [|c code IH]; [done|]. intros b _.
  apply symbolsOnly_cons in Hsym as [Hc%symbol_not_space Hsym].
  rewrite !append_cons. cbn [JS.replace_ws_from]. rewrite Hc. f_equal.
  destruct code as [|c' code]; [done|]. by apply IH.
Qed.

Lemma replace_ws_join b codes :
  Forall Spec.isCode codes →
  JS.replace_ws_from b (JS.join " " codes) = JS.join " " codes.
Proof.
  intros Hall. revert b.
  induction Hall as [|code codes [Hne Hsym] Hall IH]; intros b; [done|].
  destruct codes as [|code2 codes].
  - change (JS.join " " [code]) with code.
    rewrite <- (append_empty_r code) at 1.
    rewrite (replace_ws_symbols _ _ _ Hne Hsym). cbn [JS.replace_ws_from].
    by rewrite append_empty_r.
  - rewrite join_cons2, (replace_ws_symbols _ _ _ Hne Hsym).
    f_equal. rewrite append_cons, append_nil_l. cbn [JS.replace_ws_from].
    change (JS.is_space " ") with true. cbn iota.
    by rewrite IH.
Qed.

Lemma split_on_not_nil sep s : JS.split_on sep s ≠ [].
Proof.
  destruct s as [|c s]; [done|]. simpl.
  destruct (Ascii.eqb c sep); [done|]. by destruct (JS.split_on sep s).
Qed.

Lemma split_on_symbols code t :
  Spec.symbolsOnly code →
  JS.split_on " " (code +:+ t)
  = (code +:+ hd EmptyString (JS.split_on " " t)) :: tl (JS.split_on " " t).
Proof.
  induction code as [|c code IH].
  - intros _. pose proof (split_on_not_nil " " t).
    change (EmptyString +:+ t) with t. by destruct (JS.split_on " " t).
  - intros [Hc Hsym]%symbolsOnly_cons. rewrite !append_cons.
    cbn [JS.split_on]. rewrite (IH Hsym).
    by destruct Hc as [->| ->].
Qed.

Lemma split_on_join codes :
  codes ≠ [] → Forall Spec.isCode codes →
  JS.split_on " " (JS.join " " codes) = codes.
Proof.
  induction codes as [|code codes IH]; [done|]. intros _ Hall.
  apply Forall_cons in Hall as [[Hne Hsym] Hall].
  destruct codes as [|code2 codes].
  - change (JS.join " " [code]) with code.
    rewrite <- (append_empty_r code) at 1.
    rewrite (split_on_symbols _ _ Hsym). cbn [JS.split_on hd tl].
    by rewrite append_empty_r.
  - rewrite join_cons2, (split_on_symbols _ _ Hsym).
    rewrite append_cons, append_nil_l.
    cbn [JS.split_on]. change (Ascii.eqb " " " ") with true.
    cbn iota. rewrite (IH ltac:(done) Hall). cbn. by rewrite append_empty_r.
Qed.

Lemma join_split_chars s : JS.join EmptyString (JS.split_chars s) = s.
Proof.
  induction s as [|c s IH]; [done|]. cbn [JS.split_chars].
  destruct s as [|c' s]; [done|].
  cbn [JS.split_chars] in *. rewrite join_cons2, IH. done.
Qed.


End Strings.

(** ** Words and their codes *)

Section Words.
Import MorseConverter.

Lemma literal_codes : Forall (λ kv, Spec.isCode kv.2) morseCodeMap_literal.
Proof.
  assert (Forall (λ kv, kv.2 ≠ EmptyString ∧
            Forall (λ c, c = "."%char ∨ c = "-"%char)
              (String.list_ascii_of_string kv.2)) morseCodeMap_literal) as H
    by (apply (bool_decide_unpack _); by vm_compute).
  eapply Forall_impl; [exact H|]. intros kv [Hne Hall]. split; [done|].
  intros c Hc. by apply (proj1 (Forall_forall _ _) Hall).
Qed.

Lemma encode_isCode char code : encode char = Some code → Spec.isCode code.
Proof.
  intros Hin%literal_of_lookup.
  apply (proj1 (Forall_forall _ _) literal_codes _ Hin).
Qed.

Lemma omap_encode_codes (chars : list string) : Forall Spec.isCode (omap encode chars).
Proof.
  induction chars as [|char chars IH]; [constructor|].
  cbn [omap list_omap]. destruct (encode char) as [code|] eqn:Hc; [|done].
  constructor; [by eapply encode_isCode|done].
Qed.

Lemma wordToMorse_omap word :
  wordToMorse word
  = JS.join " " (omap encode (JS.split_chars (JS.toUpperCase word))).
Proof.
  unfold wordToMorse. destruct word as [|c word]; [done|].
  cbn [JS.truthy negb]. f_equal. apply filter_or_else_omap, code_not_empty.
Qed.

Lemma encode_key_not_empty char code : encode char = Some code → JS.truthy char = true.
Proof. destruct char; [by vm_compute|done]. Qed.

Lemma decode_omap_encode (chars : list string) :
  (λ code, JS.or_else (decode code) "?") <$> omap encode chars
  = filter (λ char, is_Some (encode char)) chars.
Proof.
  induction chars as [|char chars IH]; [done|].
  cbn [omap list_omap]. destruct (encode char) as [code|] eqn:Hc.
  - rewrite filter_cons_True by (by rewrite Hc). rewrite fmap_cons, IH.
    f_equal. rewrite (proj2 (decode_iff_encode _ _) Hc). cbn [JS.or_else].
    by rewrite (encode_key_not_empty _ _ Hc).
  - rewrite filter_cons_False; [done|]. rewrite Hc. by intros [? ?].
Qed.

Lemma upper_char_idem c : JS.upper_char (JS.upper_char c) = JS.upper_char c.
Proof. destruct c as [[] [] [] [] [] [] [] []]; reflexivity. Qed.

Lemma toUpperCase_idem s : JS.toUpperCase (JS.toUpperCase s) = JS.toUpperCase s.
Proof.
  induction s as [|c s IH]; [done|]. cbn [JS.toUpperCase].
  by rewrite upper_char_idem, IH.
Qed.

(** Property X1. [wordToMorse] does not tell the case of its argument:
    uppercasing the word first changes nothing. *)
Theorem wordToMorse_ignores_case word :
  wordToMorse (JS.toUpperCase word) = wordToMorse word.
Proof. by rewrite !wordToMorse_omap, toUpperCase_idem. Qed.

Lemma morseToWord_wordToMorse_kept word :
  let kept := filter (λ char, is_Some (encode char))
                (JS.split_chars (JS.toUpperCase word)) in
  morseToWord (wordToMorse word)
  = match kept with [] => "?" | _ => JS.join EmptyString kept end.
Proof.
  cbv zeta. rewrite <- decode_omap_encode, wordToMorse_omap.
  pose proof (omap_encode_codes (JS.split_chars (JS.toUpperCase word))) as Hall.
  destruct (omap encode _) as [|code codes] eqn:Hcodes.
  - by vm_compute.
  - unfold morseToWord.
    by rewrite (trim_join _ Hall), (split_on_join (code :: codes) ltac:(done) Hall).
Qed.

(** Property X2. Decoding an encoded word gives back, uppercased, the
    characters of the word that have a code, the others being dropped; when
    none has a code, the empty word included, the result is ["?"]. *)
Theorem morseToWord_wordToMorse word :
  let kept := filter (λ char, is_Some (encode char))
                (JS.split_chars (JS.toUpperCase word)) in
  morseToWord (wordToMorse word)
  = match kept with [] => "?" | _ => JS.join EmptyString kept end.
Proof. apply morseToWord_wordToMorse_kept. Qed.

Lemma cleanedInput_wordToMorse word :
  LearnWordsPage.cleanedInput (wordToMorse word) = wordToMorse word.
Proof.
  unfold LearnWordsPage.cleanedInput, JS.replace_ws.
  rewrite wordToMorse_omap.
  pose proof (omap_encode_codes (JS.split_chars (JS.toUpperCase word))) as Hall.
  by rewrite (trim_join _ Hall), (replace_ws_join _ _ Hall).
Qed.


Lemma letters_toUpperCase s : JS.all_upper s = true → JS.toUpperCase s = s.
Proof.
  induction s as [|c s IH]; [done|]. cbn [JS.all_upper JS.toUpperCase].
  intros [Hc Hs]%andb_true_iff. rewrite (IH Hs). f_equal.
  unfold JS.upper_char, JS.is_lower. unfold JS.is_upper in Hc.
  apply andb_true_iff in Hc as [_ Hle%N.leb_le].
  destruct (97 <=? N_of_ascii c)%N eqn:Hge; [|done].
  apply N.leb_le in Hge. lia.
Qed.

Lemma letter_encoded c :
  JS.is_upper c = true → is_Some (encode (String c EmptyString)).
Proof.
  destruct c as [[] [] [] [] [] [] [] []]; try (by intros [=]); intros _;
    by vm_compute.
Qed.

Lemma letters_kept s :
  JS.all_upper s = true →
  filter (λ char, is_Some (encode char)) (JS.split_chars s) = JS.split_chars s.
Proof.
  induction s as [|c s IH]; [done|]. cbn [JS.all_upper JS.split_chars].
  intros [Hc Hs]%andb_true_iff.
  rewrite filter_cons_True by (by apply letter_encoded). by rewrite (IH Hs).
Qed.

End Words.

Section Page.
Import LearnWords.

Lemma loader_word_test apiKey outcome :
  JS.test_AZ_plus (word (loader apiKey outcome)) = true.
Proof.
  destruct (JS.truthy (default EmptyString apiKey)) eqn:Hkey.
  - destruct outcome as [payload|message].
    + rewrite (loader_Text _ _ Hkey). cbv zeta.
      by destruct (JS.test_AZ_plus (JS.toUpperCase (JS.trim payload))) eqn:Ht.
    + unfold loader. by rewrite Hkey.
  - unfold loader. by rewrite Hkey.
Qed.

(** Property X3. Whatever the API key and the generator do, the word the
    loader returns is a non-empty string of the letters A to Z; every
    letter of it has a code, so that [wordToMorse] drops nothing, and
    decoding its encoding gives the word back. *)
Theorem loader_word_is_encoded_in_full apiKey outcome :
  let w := word (loader apiKey outcome) in
  Spec.lettersOnly w ∧
  length (omap MorseConverter.encode (JS.split_chars (JS.toUpperCase w)))
    = String.length w ∧
  MorseConverter.morseToWord (MorseConverter.wordToMorse w) = w.
Proof.
  cbv zeta. pose proof (loader_word_test apiKey outcome) as Ht.
  set (w := word (loader apiKey outcome)) in *. clearbody w.
  assert (JS.all_upper w = true) as Hu by (by destruct w).
  split_and!.
  - by apply test_AZ_plus_spec.
  - rewrite (letters_toUpperCase _ Hu). clear Ht.
    induction w as [|c w IH]; [done|]. cbn [JS.all_upper] in Hu.
    apply andb_true_iff in Hu as [Hc Hu]. cbn [JS.split_chars omap list_omap].
    destruct (letter_encoded c Hc) as [code ->]. simpl. by rewrite (IH Hu).
  - pose proof (morseToWord_wordToMorse_kept w) as Hrt. cbv zeta in Hrt.
    rewrite (letters_toUpperCase _ Hu), (letters_kept _ Hu),
      join_split_chars in Hrt.
    rewrite Hrt. by destruct w.
Qed.

(** Property X4. The loader returns a null error exactly when the API key
    is configured and the generator returned a text that, trimmed and
    uppercased, is a non-empty string of the letters A to Z. *)
Theorem loader_error_is_null_iff_accepted apiKey outcome :
  error (loader apiKey outcome) = None ↔
  JS.truthy (default EmptyString apiKey) = true ∧
  ∃ payload, outcome = Text payload ∧
    Spec.lettersOnly (JS.toUpperCase (JS.trim payload)).
Proof.
  destruct (JS.truthy (default EmptyString apiKey)) eqn:Hkey.
  - destruct outcome as [payload|message].
    + rewrite (loader_Text _ _ Hkey). cbv zeta.
      destruct (JS.test_AZ_plus _) eqn:Ht; simpl.
      * split; [|done]. intros _. split; [done|]. exists payload.
        split; [done|]. by apply test_AZ_plus_spec.
      * split; [done|]. intros [_ (p & [= <-] & Hl%test_AZ_plus_spec)].
        congruence.
    + unfold loader. rewrite Hkey. simpl. split; [done|].
      by intros [_ (p & ? & _)].
  - unfold loader. rewrite Hkey. simpl. split; [done|]. by intros [? _].
Qed.

End Page.

Section PageMachine.
Import LearnWordsPage.

Lemma fetcherEffect_loading s :
  isLoading s = true → fetcherEffect s = s.
Proof.
  unfold isLoading, fetcherEffect.
  destruct (data (fetcher s)); by destruct (state (fetcher s)).
Qed.

Lemma hint_step e s s' :
  step e s = Some s' →
  correctMorse s = MorseConverter.wordToMorse (currentWord s) →
  correctMorse s' = MorseConverter.wordToMorse (currentWord s').
Proof.
  intros Hstep Hinv. destruct e as [value| | | |d]; simpl in Hstep.
  - destruct (isLoading s || isCorrect s); [done|]. by injection Hstep as <-.
  - destruct (_ || _) eqn:Hg; [done|]. injection Hstep as <-.
    unfold handleCheck. destruct (isLoading s || isCorrect s); [done|].
    by destruct (decide _).
  - destruct (_ || _) eqn:Hg; [done|]. injection Hstep as <-.
    unfold handleShowHint. by destruct (isLoading s || isCorrect s).
  - destruct (isLoading s) eqn:Hl; [done|]. injection Hstep as <-.
    unfold handleNextWord. rewrite Hl. by rewrite fetcherEffect_loading.
  - destruct (isLoading s) eqn:Hl; [|done]. injection Hstep as <-.
    unfold loaded, fetcherEffect. simpl.
    destruct (decide (LearnWords.word d = currentWord s)) as [Heq|Hne]; simpl.
    + by rewrite Heq.
    + done.
Qed.

Lemma hint_run evs s s' :
  run evs s = Some s' →
  correctMorse s = MorseConverter.wordToMorse (currentWord s) →
  correctMorse s' = MorseConverter.wordToMorse (currentWord s').
Proof.
  revert s. induction evs as [|e evs IH]; intros s; simpl.
  - by intros [= <-].
  - destruct (step e s) as [s1|] eqn:Hstep; [|done]. simpl.
    intros Hrun Hinv. apply (IH _ Hrun). by apply (hint_step e s).
Qed.

(** Property X5. In every state of the page reached from mount, whatever
    the words loaded since, the hint [correctMorse] is the encoding of the
    word displayed. *)
Theorem hint_encodes_current_word initialData evs s :
  run evs (mount initialData) = Some s →
  correctMorse s = MorseConverter.wordToMorse (currentWord s).
Proof. intros Hrun. by apply (hint_run _ _ _ Hrun). Qed.

Lemma hint_encodes_current_word_witness :
  ∃ s, run [Type_ ".."; Check; Next;
            Loaded {| LearnWords.word := "SOS"; LearnWords.error := None |}]
         (mount {| LearnWords.word := "HELLO"; LearnWords.error := None |})
       = Some s ∧ correctMorse s = "... --- ...".
Proof.
  eexists. split; [reflexivity|].
  exact (hint_encodes_current_word
           {| LearnWords.word := "HELLO"; LearnWords.error := None |}
           [Type_ ".."; Check; Next;
            Loaded {| LearnWords.word := "SOS"; LearnWords.error := None |}]
           _ eq_refl).
Defined.

(** Property X6. In a state of the page reached from mount, not loading
    and not yet correct, typing a non-empty input and checking it gives the
    verdict [correct] or [incorrect], and [correct] exactly when the input,
    trimmed and with each run of white space replaced by one space, is the
    encoding of the word displayed; typing the hint itself is accepted. *)
Theorem check_compares_cleaned_input initialData evs s value :
  run evs (mount initialData) = Some s →
  isLoading s = false → isCorrect s = false → JS.truthy value = true →
  ∃ s', run [Type_ value; Check] s = Some s' ∧
    currentWord s' = currentWord s ∧
    (validationState s' = correct ∨ validationState s' = incorrect) ∧
    (validationState s' = correct ↔
       cleanedInput value = MorseConverter.wordToMorse (currentWord s)) ∧
    (value = MorseConverter.wordToMorse (currentWord s) →
       validationState s' = correct ∧ feedback s' = "Correct!").
Proof.
  intros Hrun Hl Hc Hv. pose proof (hint_run _ _ _ Hrun eq_refl) as Hinv.
  set (s1 := setUserInput value s).
  assert (step (Type_ value) s = Some s1) as H1 by (simpl; by rewrite Hl, Hc).
  assert (isLoading s1 = false) as Hl1 by done.
  assert (isCorrect s1 = false) as Hc1 by done.
  assert (step Check s1 = Some (handleCheck s1)) as H2.
  { simpl. rewrite Hl1, Hc1. simpl. by rewrite Hv. }
  exists (handleCheck s1). split.
  { cbn [run]. rewrite H1. cbn [mbind option_bind]. by rewrite H2. }
  unfold handleCheck. rewrite Hl1, Hc1. cbn [orb].
  change (userInput s1) with value.
  change (correctMorse s1) with (correctMorse s). rewrite Hinv.
  destruct (decide (cleanedInput value
                    = MorseConverter.wordToMorse (currentWord s))) as [Heq|Hne];
    cbn [currentWord validationState feedback s1 setUserInput].
  - split_and!; [done|by left|by split|done].
  - split_and!; [done|by right|by split|].
    intros ->. destruct Hne. apply cleanedInput_wordToMorse.
Qed.

Lemma check_compares_cleaned_input_witness :
  ∃ s', run [Type_ "  .... . .-..   .-.. ---  "; Check]
          (mount {| LearnWords.word := "HELLO"; LearnWords.error := None |})
        = Some s' ∧ validationState s' = correct.
Proof.
  destruct (check_compares_cleaned_input
              {| LearnWords.word := "HELLO"; LearnWords.error := None |} []
              _ "  .... . .-..   .-.. ---  " eq_refl eq_refl eq_refl eq_refl)
    as (s' & Hrun & _ & _ & Hiff & _).
  exists s'. split; [exact Hrun|]. apply Hiff. reflexivity.
Defined.

(** Property X7. Once the verdict is [correct], the input field, Check and
    Hint are disabled; asking for the next word keeps the verdict, the
    feedback, the input and the word while the page loads, and the arrival
    of the word resets the exercise. *)
Theorem correct_until_next_word e s s' :
  step e s = Some s' → validationState s = correct →
  match e with
  | Next =>
      validationState s' = correct ∧ feedback s' = feedback s ∧
      userInput s' = userInput s ∧ currentWord s' = currentWord s ∧
      isLoading s' = true
  | Loaded d =>
      validationState s' = idle ∧ userInput s' = EmptyString ∧
      showHint s' = false ∧ feedback s' = EmptyString ∧
      currentWord s' = LearnWords.word d ∧ apiError s' = LearnWords.error d ∧
      isLoading s' = false
  | _ => False
  end.
Proof.
  intros Hstep Hv. assert (isCorrect s = true) as Hc
    by (unfold isCorrect; by rewrite Hv).
  destruct e as [value| | | |d]; simpl in Hstep; rewrite ?Hc, ?orb_true_r in Hstep;
    try done.
  - destruct (isLoading s) eqn:Hl; [done|]. injection Hstep as <-.
    unfold handleNextWord. rewrite Hl. by rewrite fetcherEffect_loading.
  - destruct (isLoading s) eqn:Hl; [|done]. injection Hstep as <-.
    unfold loaded, fetcherEffect. simpl. by destruct (decide _).
Qed.

Lemma correct_until_next_word_witness :
  let s := handleCheck
             (setUserInput "... --- ..."
                (mount {| LearnWords.word := "SOS"; LearnWords.error := None |})) in
  validationState s = correct ∧ step Check s = None ∧
  isLoading (handleNextWord s) = true.
Proof.
  cbv zeta. split; [reflexivity|]. split; [reflexivity|].
  exact (proj2 (proj2 (proj2 (proj2
           (correct_until_next_word Next
              (handleCheck
                 (setUserInput "... --- ..."
                    (mount {| LearnWords.word := "SOS";
                              LearnWords.error := None |})))
              _ eq_refl eq_refl))))).
Defined.

End PageMachine.

(** ** Runs of the decoder *)

Section DecoderRuns.
Import MorseInput Invariants.

Lemma reachable_after_dit :
  Reachable 1100
    (handlePressEnd 0 1100 (handlePressStart 1000 (mount 0, Timers.empty))).
Proof.
  apply (Reachable_step 0 1000 1100 PressEnd
           (handlePressStart 1000 (mount 0, Timers.empty)) _ None);
    [|lia|done].
  apply (Reachable_step 0 0 1000 PressStart (mount 0, Timers.empty) _ None);
    [apply Reachable_mount|lia|done].
Qed.

(** Property X8. A release that is not preceded by a press changes nothing:
    in particular the release that follows a release, whatever the times
    and the callbacks, so that one press gives one symbol. *)
Theorem second_release_is_ignored h h' now now' c :
  handlePressEnd h' now' (handlePressEnd h now c) = handlePressEnd h now c.
Proof.
  destruct (pressStarted c.1) as [start|] eqn:Hp.
  - by rewrite (handlePressEnd_Some _ _ _ _ Hp).
  - unfold handlePressEnd at 2. rewrite Hp.
    unfold handlePressEnd. by rewrite Hp.
Qed.

(** Property X9. In a state reached from mount, a timer that fires always
    calls [onInputComplete], with the buffer, which is not empty: the test
    of [completeInputSequence] never fails there. The timer is the one
    remembered in [charTimer]; it fires no earlier than [interCharSpace]
    after the last release, with no press under way, and leaves no timer
    pending. *)
Theorem reachable_timer_emits_buffer h t0 c t id c' out :
  Reachable t0 c → step h t (TimerFires id) c = Some (c', out) →
  (∃ h', out = Some (h', currentMorseChar c.1)) ∧
  currentMorseChar c.1 ≠ EmptyString ∧
  lastReleaseTime c.1 + interCharSpace ≤ t ∧
  charTimer c.1 = Some id ∧ isPressing c.1 = false ∧
  charTimer c'.1 = None ∧ Timers.pending c'.2 = ∅.
Proof.
  intros Hinv%invariant_Reachable Hstep.
  pose proof (invariant_step _ _ _ _ _ _ Hinv Hstep) as Hinv'.
  apply step_TimerFires in Hstep as (tm & h' & Hl & Hdue & Hcb & -> & ->).
  destruct (inv_armed _ Hinv _ _ Hl) as [Hne Hnone].
  destruct (inv_due _ Hinv _ _ Hl) as [Hd _].
  split_and!.
  - exists h'. unfold completeInputSequence.
    by rewrite (proj2 (truthy_not_empty _) Hne).
  - done.
  - by rewrite <- Hd.
  - apply (inv_single _ Hinv _ _ Hl).
  - by rewrite (inv_pressing _ Hinv), Hnone.
  - done.
  - simpl. apply map_eq. intros i. rewrite lookup_empty.
    destruct (delete id (Timers.pending c.2) !! i) as [tm'|] eqn:Hi; [|done].
    apply lookup_delete_Some in Hi as [Hne' Hi].
    apply (inv_single _ Hinv) in Hi, Hl. congruence.
Qed.

Lemma reachable_timer_emits_buffer_witness :
  ∃ h', Some (0%nat, ".")
        = Some (h', currentMorseChar
                      (handlePressEnd 0 1100
                         (handlePressStart 1000 (mount 0, Timers.empty))).1).
Proof.
  exact (proj1 (reachable_timer_emits_buffer 0 1100
                  (handlePressEnd 0 1100
                     (handlePressStart 1000 (mount 0, Timers.empty)))
                  1550 1 _ _ reachable_after_dit eq_refl)).
Defined.

(** Property X10. In a state reached from mount, [clearInput] gives the
    state of a component mounted at that time and leaves no timer pending:
    a reset forgets everything but the handles already used. *)
Theorem clearInput_returns_to_mount t0 c now :
  Reachable t0 c →
  clearInput now c
  = (mount now, {| Timers.pending := ∅; Timers.nextId := Timers.nextId c.2 |}).
Proof.
  intros Hinv%invariant_Reachable. unfold clearInput.
  pose proof (clearTimers_pending c (inv_single _ Hinv)) as He.
  pose proof (clearTimers_nextId c) as Hn.
  pose proof (clearTimers_state c) as Hs.
  destruct (clearTimers c) as [s [p n]]. simpl in *. by subst.
Qed.

Lemma clearInput_returns_to_mount_witness :
  clearInput 2000
    (handlePressEnd 0 1100 (handlePressStart 1000 (mount 0, Timers.empty)))
  = (mount 2000,
     {| Timers.pending := ∅;
        Timers.nextId :=
          Timers.nextId
            (handlePressEnd 0 1100
               (handlePressStart 1000 (mount 0, Timers.empty))).2 |}).
Proof.
  exact (clearInput_returns_to_mount 1100 _ 2000 reachable_after_dit).
Defined.

(** Property X11. In a state reached from mount, the displayed input
    [rawInput] is the buffer [currentMorseChar], and the flag [isPressing]
    is set exactly when a press is under way ([pressStartTime] is not
    null): the state cells and the refs are written together. *)
Theorem display_agrees_with_buffer t0 c :
  Reachable t0 c →
  rawInput c.1 = currentMorseChar c.1 ∧
  (isPressing c.1 = true ↔ is_Some (pressStartTime c.1)).
Proof.
  intros Hinv%invariant_Reachable. split; [apply (inv_display _ Hinv)|].
  rewrite (inv_pressing _ Hinv). apply bool_decide_eq_true.
Qed.

Lemma display_agrees_with_buffer_witness :
  rawInput
    (handlePressEnd 0 1100 (handlePressStart 1000 (mount 0, Timers.empty))).1
  = currentMorseChar
      (handlePressEnd 0 1100 (handlePressStart 1000 (mount 0, Timers.empty))).1.
Proof.
  exact (proj1 (display_agrees_with_buffer 1100 _ reachable_after_dit)).
Defined.






End DecoderRuns.

Section Tables3.

Lemma letters_literal_in_converter :
  Forall (λ kv, MorseConverter.encode kv.1 = Some kv.2)
    LearningInterface.morseCodeMap_literal.
Proof. apply (bool_decide_unpack _). by vm_compute. Qed.

Lemma slash_is_no_code char : MorseConverter.encode char ≠ Some "/".
Proof.
  intros [_ Hsym]%encode_isCode.
  destruct (Hsym "/"%char) as [?|?]; [by constructor|done|done].
Qed.

Lemma decoder_table :
  MorseInput.morseCodeMap = <[" " := "/"]> MorseConverter.morseCodeMap.
Proof. by vm_compute. Qed.

(** Property X13. The three copies of the table agree: every entry of the
    table of [LearningInterface] is an entry of the table of the
    converter; the table of [MorseInput] is the table of the converter with
    the entry of the space, ["/"], added; and no two characters of it have
    the same code. *)
Theorem tables_agree :
  (∀ char code, LearningInterface.morseCodeMap !! char = Some code →
     MorseConverter.encode char = Some code) ∧
  MorseInput.morseCodeMap = <[" " := "/"]> MorseConverter.morseCodeMap ∧
  (∀ char char' code, MorseInput.morseCodeMap !! char = Some code →
     MorseInput.morseCodeMap !! char' = Some code → char = char').
Proof.
  split_and!.
  - intros char code Hin%elem_of_list_to_map_2.
    apply (proj1 (Forall_forall _ _) letters_literal_in_converter _ Hin).
  - apply decoder_table.
  - intros char char' code. rewrite decoder_table, !lookup_insert_Some.
    intros [[<- <-]|[_ H1]] [[<- H2]|[_ H2]]; try done.
    + by destruct (slash_is_no_code char').
    + subst code. by destruct (slash_is_no_code char).
    + apply decode_iff_encode in H1, H2. congruence.
Qed.
End Tables3.

(** ** Runs of the session *)

Section SessionRuns.
Import LearningInterface Invariants.


Lemma clearInput_state now c : (MorseInput.clearInput now c).1 = MorseInput.mount now.
Proof.
  unfold MorseInput.clearInput. pose proof (clearTimers_state c) as Hs.
  destruct (MorseInput.clearTimers c) as [s ts]. simpl in *. by subst s.
Qed.

Lemma advance_moves captured now w :
  (captured < 25)%nat →
  ui (advance captured now w)
  = {| currentItemIndex := S (currentItemIndex (ui w));
       validationState := idle; feedbackMessage := EmptyString |} ∧
  input (advance captured now w)
  = match itemAt (S (currentItemIndex (ui w))) with
    | Some _ => Some (MorseInput.mount now)
    | None => None
    end.
Proof.
  intros Hlt. unfold advance.
  rewrite decide_True by (by vm_compute in Hlt |- *).
  unfold itemChanged. rewrite withInput_ui, withInput_input. cbn [ui setFeedback].
  unfold remount. cbn [ui input]. rewrite !withInput_ui. cbn [ui].
  split; [done|]. unfold currentItem. rewrite !withInput_ui. cbn [ui currentItemIndex].
  destruct (itemAt (S (currentItemIndex (ui w)))); [|done].
  cbn [fmap option_fmap option_map]. by f_equal.
Qed.

Lemma advance_stays captured now w :
  ¬ (captured < 25)%nat →
  advance captured now w
  = setFeedback (validationState (ui w))
      "Congratulations! You completed all letters." w.
Proof.
  intros Hge. unfold advance. by rewrite decide_False.
Qed.




Lemma advance_index captured now w :
  currentItemIndex (ui (advance captured now w)) = currentItemIndex (ui w) ∨
  currentItemIndex (ui (advance captured now w)) = S (currentItemIndex (ui w)).
Proof.
  destruct (decide (captured < 25)%nat) as [Hlt|Hge].
  - right. by rewrite (proj1 (advance_moves _ _ _ Hlt)).
  - left. by rewrite (advance_stays _ _ _ Hge).
Qed.

Lemma step_index now e w w' :
  step now e w = Some w' →
  currentItemIndex (ui w') = currentItemIndex (ui w) ∨
  currentItemIndex (ui w') = S (currentItemIndex (ui w)).
Proof.
  destruct e as [| |id]; simpl.
  - destruct (input w); simpl; [|done]. intros [= <-]. left. by rewrite withInput_ui.
  - destruct (input w); simpl; [|done]. intros [= <-]. left. by rewrite withInput_ui.
  - destruct (Timers.take id now (timers w)) as [[cb ts]|]; simpl; [|done].
    destruct cb as [h|i|]; simpl.
    + destruct (input w) as [s0|]; simpl; [|done].
      destruct (MorseInput.completeInputSequence h s0) as [[h' code]|];
        intros [= <-]; simpl; left; [|done].
      by rewrite (proj1 (handleInputComplete_index _ _ _ _)).
    + intros [= <-].
      apply (advance_index i now {| ui := ui w; input := input w; timers := ts |}).
    + intros [= <-]. left. unfold retry. by rewrite withInput_ui.
Qed.

(** Property X15. Along every run of the session the index of the current
    item never decreases, and it grows by one per event at most. *)
Theorem index_moves_forward clock evs w w' :
  run clock evs w = Some w' →
  (currentItemIndex (ui w) ≤ currentItemIndex (ui w')
   ≤ currentItemIndex (ui w) + length evs)%nat.
Proof.
  revert clock w. induction evs as [|[now e] evs IH]; intros clock w; simpl.
  - intros [= <-]. lia.
  - destruct (decide (clock ≤ now)); [|done].
    destruct (step now e w) as [w1|] eqn:Hstep; simpl; [|done].
    intros Hrun%IH. apply step_index in Hstep. lia.
Qed.

Lemma index_moves_forward_witness :
  ∃ w', run 0 allCorrect (mount 0) = Some w' ∧
        (0 ≤ currentItemIndex (ui w') ≤ 0 + length allCorrect)%nat.
Proof.
  eexists. split; [by vm_compute|].
  exact (index_moves_forward 0 allCorrect (mount 0) _ ltac:(by vm_compute)).
Defined.

Lemma run_cons clock now e evs w :
  run clock ((now, e) :: evs) w
  = if decide (clock ≤ now) then step now e w ≫= run now evs else None.
Proof. done. Qed.

Lemma step_Fire now id w tm :
  Timers.pending (timers w) !! id = Some tm → Timers.due tm ≤ now →
  step now (Fire id) w
  = fire (Timers.callback tm) (Timers.clearTimeout id (timers w)) now w.
Proof.
  intros Hl Hd. cbn [step]. unfold Timers.take. rewrite Hl.
  by rewrite decide_True.
Qed.

Lemma clearTimers_keeps c id :
  MorseInput.charTimer c.1 ≠ Some id →
  Timers.pending (MorseInput.clearTimers c).2 !! id = Timers.pending c.2 !! id.
Proof.
  destruct c as [s ts]. simpl. intros Hne.
  destruct (MorseInput.charTimer s) as [i|]; [|done]. simpl.
  apply lookup_delete_ne. congruence.
Qed.

Lemma clearInput_keeps now c id :
  MorseInput.charTimer c.1 ≠ Some id →
  Timers.pending (MorseInput.clearInput now c).2 !! id = Timers.pending c.2 !! id.
Proof.
  intros Hne. rewrite <- (clearTimers_keeps c id Hne).
  unfold MorseInput.clearInput. by destruct (MorseInput.clearTimers c).
Qed.

Lemma withInput_keeps f w id :
  (∀ c, MorseInput.charTimer c.1 ≠ Some id →
        Timers.pending (f c).2 !! id = Timers.pending c.2 !! id) →
  (∀ s, input w = Some s → MorseInput.charTimer s ≠ Some id) →
  Timers.pending (timers (withInput f w)) !! id = Timers.pending (timers w) !! id.
Proof.
  intros Hf Hw. unfold withInput. destruct (input w) as [s|] eqn:Hs; [|done].
  specialize (Hf (s, timers w) (Hw s eq_refl)).
  by destruct (f (s, timers w)).
Qed.

Lemma advance_keeps_timer captured now w id :
  (∀ s, input w = Some s → MorseInput.charTimer s ≠ Some id) →
  Timers.pending (timers (advance captured now w)) !! id
  = Timers.pending (timers w) !! id.
Proof.
  intros Hw. unfold advance. destruct (decide _); [|done].
  unfold itemChanged.
  rewrite withInput_keeps; [|intros c; apply clearInput_keeps|].
  - cbn [timers setFeedback remount].
    rewrite withInput_keeps; [|intros c; apply clearTimers_keeps|].
    + by rewrite withInput_keeps; [|intros c; apply clearInput_keeps|].
    + intros s. rewrite withInput_input. intros (s0 & _ & ->)%fmap_Some.
      by rewrite clearInput_state.
  - intros s. cbn [input setFeedback remount].
    destruct (currentItem _); [|done]. by intros [= <-].
Qed.

(** Property X16. The advance callback increments the index of the render
    that runs it, and tests the index of the render that created it: when
    two advance timers armed for the same item [i], not the last one, are
    pending, firing both moves the session two items forward, and the item
    in between is never asked. Such a state is reached by
    [staleAdvance]. *)
Theorem two_advances_skip_an_item i id1 id2 due1 due2 t1 t2 w :
  (i < 25)%nat → id1 ≠ id2 →
  Timers.pending (timers w) !! id1
    = Some {| Timers.due := due1; Timers.callback := Advance i |} →
  Timers.pending (timers w) !! id2
    = Some {| Timers.due := due2; Timers.callback := Advance i |} →
  (∀ s, input w = Some s → MorseInput.charTimer s ≠ Some id2) →
  due1 ≤ t1 → t1 ≤ t2 → due2 ≤ t2 →
  ∃ w', run t1 [(t1, Fire id1); (t2, Fire id2)] w = Some w' ∧
    currentItemIndex (ui w') = S (S (currentItemIndex (ui w))).
Proof.
  intros Hi Hne H1 H2 Hct Hd1 Ht Hd2.
  rewrite run_cons, decide_True by lia.
  rewrite (step_Fire _ _ _ _ H1) by done. cbn [Timers.callback fire mbind option_bind].
  set (w0 := {| ui := ui w; input := input w;
                timers := Timers.clearTimeout id1 (timers w) |}).
  destruct (advance_moves i t1 w0 Hi) as [Hui Hin].
  assert (Timers.pending (timers (advance i t1 w0)) !! id2
          = Some {| Timers.due := due2; Timers.callback := Advance i |}) as H2'.
  { rewrite advance_keeps_timer by done. cbn [w0 timers Timers.clearTimeout
      Timers.pending]. by rewrite lookup_delete_ne. }
  rewrite run_cons, decide_True by lia.
  rewrite (step_Fire _ _ _ _ H2') by done.
  cbn [Timers.callback fire mbind option_bind run].
  eexists. split; [done|].
  rewrite (proj1 (advance_moves i t2 _ Hi)). cbn [currentItemIndex ui].
  by rewrite Hui.
Qed.


Lemma items_have_codes :
  Forall (λ i, is_Some (expectedAt i) ∧
               (itemAt i ≫= MorseConverter.encode) = expectedAt i)
    (seq 0 26).
Proof. apply (bool_decide_unpack _). by vm_compute. Qed.

(** Property X17. The sequence has an item at the indices below 26 and at
    no other; the expected code of each item is defined, is a non-empty
    string of dits and dahs, and is the code the converter gives the item:
    the feedback never reads "undefined". *)
Theorem expected_code_is_defined i :
  (is_Some (itemAt i) ↔ (i < 26)%nat) ∧
  ∀ item, itemAt i = Some item →
    ∃ code, expectedAt i = Some code ∧ Spec.isCode code ∧
            MorseConverter.encode item = Some code.
Proof.
  split.
  - unfold itemAt. rewrite lookup_lt_is_Some. done.
  - intros item Hitem.
    assert (i < 26)%nat as Hlt
      by (apply (lookup_lt_Some learningSequence i item Hitem)).
    pose proof (proj1 (Forall_forall _ _) items_have_codes i) as H.
    destruct H as [[code Hexp] He]; [apply elem_of_seq; lia|].
    rewrite Hitem, Hexp in He. cbn [mbind option_bind] in He.
    exists code. split_and!; [done| |done]. by eapply encode_isCode.
Qed.


Lemma bufferOK_mount now : bufferOK (MorseInput.mount now).
Proof. split; [apply symbolsOnly_empty|done]. Qed.

Lemma bufferOK_handlePressStart now c :
  bufferOK c.1 → bufferOK (MorseInput.handlePressStart now c).1.
Proof.
  unfold bufferOK. by destruct (handlePressStart_buffer now c) as [-> ->].
Qed.

Lemma bufferOK_handlePressEnd h now c :
  bufferOK c.1 → bufferOK (MorseInput.handlePressEnd h now c).1.
Proof.
  intros [Hsym Hraw]. destruct (MorseInput.pressStarted c.1) as [start|] eqn:Hp.
  - rewrite (handlePressEnd_Some _ _ _ _ Hp). split; simpl.
    + apply symbolsOnly_app; [done|apply symbolsOnly_classify].
    + by rewrite Hraw.
  - unfold MorseInput.handlePressEnd. by rewrite Hp.
Qed.

Lemma sessionInvariant_withInput f w :
  (∀ c, bufferOK c.1 → bufferOK (f c).1) →
  sessionInvariant w → sessionInvariant (withInput f w).
Proof.
  intros Hf [Hiff Hbuf]. split.
  - unfold currentItem. rewrite withInput_ui, withInput_input, fmap_is_Some.
    apply Hiff.
  - intros s. rewrite withInput_input. intros (s0 & Hs0 & ->)%fmap_Some.
    apply (Hf (s0, timers w)), Hbuf, Hs0.
Qed.

Lemma sessionInvariant_timers w ts :
  sessionInvariant w →
  sessionInvariant {| ui := ui w; input := input w; timers := ts |}.
Proof. done. Qed.

Lemma sessionInvariant_advance i now w :
  sessionInvariant w → sessionInvariant (advance i now w).
Proof.
  intros Hinv. destruct (decide (i < 25)%nat) as [Hlt|Hge].
  - destruct (advance_moves i now w Hlt) as [Hui Hin]. split.
    + unfold currentItem. rewrite Hui, Hin. cbn [currentItemIndex].
      by destruct (itemAt _).
    + intros s. rewrite Hin. destruct (itemAt _); [|done].
      intros [= <-]. apply bufferOK_mount.
  - by rewrite (advance_stays _ _ _ Hge).
Qed.

Lemma fire_CharTimeout h ts now w w' :
  fire (CharTimeout h) ts now w = Some w' →
  ∃ s0, input w = Some s0 ∧
    currentItemIndex (ui w') = currentItemIndex (ui w) ∧
    input w' = Some (MorseInput.charTimeout h s0).1.
Proof.
  simpl. destruct (input w) as [s0|] eqn:Hs0; simpl; [|done].
  intros [= <-]. exists s0. split; [done|]. simpl. split; [|done].
  destruct (MorseInput.completeInputSequence h s0) as [[h' code]|]; [|done].
  by rewrite (proj1 (handleInputComplete_index _ _ _ _)).
Qed.

Lemma sessionInvariant_step now e w w' :
  sessionInvariant w → step now e w = Some w' → sessionInvariant w'.
Proof.
  intros Hinv. destruct e as [| |id]; simpl.
  - destruct (input w); simpl; [|done]. intros [= <-].
    apply sessionInvariant_withInput; [apply bufferOK_handlePressStart|done].
  - destruct (input w); simpl; [|done]. intros [= <-].
    apply sessionInvariant_withInput; [apply bufferOK_handlePressEnd|done].
  - destruct (Timers.take id now (timers w)) as [[cb ts]|]; simpl; [|done].
    destruct cb as [h|i|].
    + intros (s0 & Hs0 & Hidx & Hin)%fire_CharTimeout.
      destruct Hinv as [Hiff Hbuf]. split.
      * unfold currentItem in *. rewrite Hidx, Hin, <- Hiff, Hs0.
        split; by eauto.
      * intros s. rewrite Hin. intros [= <-]. apply (Hbuf s0 Hs0).
    + simpl. intros [= <-].
      by apply sessionInvariant_advance, sessionInvariant_timers.
    + simpl. intros [= <-]. unfold retry.
      apply sessionInvariant_withInput; [|by apply sessionInvariant_timers].
      intros c _. rewrite clearInput_state. apply bufferOK_mount.
Qed.
(** Property X18. In every state of the session reached from mount, the
    decoder is rendered exactly when the index is within the sequence; its
    buffer holds only dits and dahs and is what is displayed. *)
Theorem session_shows_decoder_while_items_remain t0 clock evs w :
  run clock evs (mount t0) = Some w →
  (is_Some (input w) ↔ (currentItemIndex (ui w) < 26)%nat) ∧
  ∀ s, input w = Some s →
    Spec.symbolsOnly (MorseInput.currentMorseChar s) ∧
    MorseInput.rawInput s = MorseInput.currentMorseChar s.
Proof.
  intros Hrun.
  assert (sessionInvariant w) as [Hiff Hbuf].
  { assert (sessionInvariant (mount t0)) as Hinv0.
    { split; [by split; eexists|]. intros s [= <-]. apply bufferOK_mount. }
    revert Hrun Hinv0. generalize (mount t0). revert clock.
    induction evs as [|[now e] evs IH]; intros clock w0; simpl.
    - by intros [= <-].
    - destruct (decide (clock ≤ now)); [|done].
      destruct (step now e w0) as [w1|] eqn:Hstep; simpl; [|done].
      intros Hrun Hinv. apply (IH _ _ Hrun). by eapply sessionInvariant_step. }
  split; [|done]. rewrite Hiff. unfold currentItem, itemAt.
  by rewrite lookup_lt_is_Some.
Qed.

Lemma session_shows_decoder_while_items_remain_witness :
  ∃ w, run 0 staleAdvance (mount 0) = Some w ∧ is_Some (input w).
Proof.
  eexists. split; [by vm_compute|].
  match goal with
  | |- is_Some (input ?w) =>
      apply (proj1 (session_shows_decoder_while_items_remain 0 0 staleAdvance w
                      ltac:(by vm_compute)))
  end.
  vm_compute. lia.
Defined.

Lemma two_advances_skip_an_item_witness :
  ∃ w', run 3800 [(3800, Fire 4); (4540, Fire 7)] afterStaleAdvance = Some w' ∧
    currentItemIndex (ui w') = S (S (currentItemIndex (ui afterStaleAdvance))).
Proof.
  apply (two_advances_skip_an_item 0 4 7 3800 4540 3800 4540 afterStaleAdvance);
    [lia|done|by vm_compute|by vm_compute| |lia|lia|lia].
  intros s Hs. vm_compute in Hs. by injection Hs as <-.
Defined.

End SessionRuns.

(** ** The timers of the session *)

Section SessionTimers.
Import LearningInterface Invariants.

Lemma cancels_clearTimers : cancels MorseInput.clearTimers.
Proof.
  intros [s ts] id tm. simpl. destruct (MorseInput.charTimer s) as [i|]; simpl.
  - intros [Hne Hl]%lookup_delete_Some. split; [done|congruence].
  - done.
Qed.

Lemma cancels_clearInput now : cancels (MorseInput.clearInput now).
Proof.
  intros c id tm Hl. apply cancels_clearTimers.
  unfold MorseInput.clearInput in Hl. by destruct (MorseInput.clearTimers c).
Qed.

Lemma cancels_handlePressStart now : cancels (MorseInput.handlePressStart now).
Proof.
  intros c id tm Hl. apply cancels_clearTimers.
  unfold MorseInput.handlePressStart in Hl.
  by destruct (MorseInput.clearTimers c).
Qed.

Lemma withInput_cancels f w id tm :
  cancels f →
  Timers.pending (timers (withInput f w)) !! id = Some tm →
  Timers.pending (timers w) !! id = Some tm ∧
  ∀ s, input w = Some s → MorseInput.charTimer s ≠ Some id.
Proof.
  intros Hf. unfold withInput. destruct (input w) as [s|] eqn:Hs; [|done].
  specialize (Hf (s, timers w) id tm).
  destruct (f (s, timers w)) as [s' ts']. simpl in *.
  intros [Hl Hne]%Hf. split; [done|]. by intros s0 [= <-].
Qed.

(** After [f] no completion timer is left. *)
Lemma withInput_no_completion f w id tm h :
  cancels f → completionsCurrent w →
  Timers.pending (timers (withInput f w)) !! id = Some tm →
  Timers.callback tm = CharTimeout h → False.
Proof.
  intros Hf Hinv Hl Hcb. apply (withInput_cancels f w id tm Hf) in Hl as [Hl Hne].
  destruct (Hinv id tm h Hl Hcb) as [_ (s & Hs & Hct)]. by apply (Hne s).
Qed.

Lemma completionsCurrent_feedback v msg w :
  completionsCurrent w → completionsCurrent (setFeedback v msg w).
Proof. done. Qed.

Lemma completionsCurrent_later cb delay now w :
  is_char cb = false →
  completionsCurrent w → completionsCurrent (later cb delay now w).
Proof.
  intros Hcb Hinv id tm h. cbn [later timers Timers.setTimeout snd Timers.pending].
  intros [[<- <-]|[_ Hl]]%lookup_insert_Some.
  - cbn [Timers.callback]. intros ->. done.
  - apply (Hinv id tm h Hl).
Qed.

Lemma completionsCurrent_handleInputComplete captured code now w :
  completionsCurrent w →
  completionsCurrent (handleInputComplete captured code now w).
Proof.
  intros Hinv. unfold handleInputComplete. destruct (itemAt captured); [|done].
  destruct (decide _); by apply completionsCurrent_later.
Qed.


Lemma completionsCurrent_none w :
  (∀ id tm h, Timers.pending (timers w) !! id = Some tm →
              Timers.callback tm = CharTimeout h → False) →
  completionsCurrent w.
Proof. intros Hno id tm h Hl Hcb. destruct (Hno id tm h Hl Hcb). Qed.

Lemma completionsCurrent_taken id w :
  completionsCurrent w →
  completionsCurrent
    {| ui := ui w; input := input w;
       timers := Timers.clearTimeout id (timers w) |}.
Proof.
  intros Hinv id' tm h. cbn [timers Timers.clearTimeout Timers.pending ui input].
  intros [_ Hl]%lookup_delete_Some. by apply Hinv.
Qed.

Lemma completionsCurrent_advance i now w :
  completionsCurrent w → completionsCurrent (advance i now w).
Proof.
  intros Hinv. unfold advance. destruct (decide _); [|done].
  apply completionsCurrent_none. intros id tm h Hl Hcb.
  unfold itemChanged in Hl.
  apply (withInput_cancels _ _ _ _ (cancels_clearInput now)) in Hl as [Hl _].
  cbn [timers setFeedback remount] in Hl.
  apply (withInput_cancels _ _ _ _ cancels_clearTimers) in Hl as [Hl _].
  apply (withInput_cancels _ _ _ _ (cancels_clearInput now)) in Hl as [Hl Hne].
  cbn [timers input] in Hl, Hne.
  destruct (Hinv id tm h Hl Hcb) as [_ (s & Hs & Hct)]. by apply (Hne s).
Qed.

Lemma completionsCurrent_release now w s :
  input w = Some s → completionsCurrent w →
  completionsCurrent
    (withInput (MorseInput.handlePressEnd (currentItemIndex (ui w)) now) w).
Proof.
  intros Hs Hinv. unfold withInput. rewrite Hs.
  destruct (MorseInput.pressStarted s) as [start|] eqn:Hp.
  - rewrite (handlePressEnd_Some _ _ (s, timers w) start Hp).
    intros id tm h. cbn [timers ui input Timers.pending snd fst].
    intros [[<- <-]|[_ Hl]]%lookup_insert_Some.
    + cbn [Timers.callback]. intros [= <-]. split; [done|]. by eexists.
    + intros Hcb. apply cancels_clearTimers in Hl as [Hl Hne].
      destruct (Hinv id tm h Hl Hcb) as [_ (s' & Hs' & Hct)].
      rewrite Hs in Hs'. injection Hs' as <-. done.
  - unfold MorseInput.handlePressEnd. cbn [fst]. rewrite Hp.
    intros id tm h Hl Hcb. destruct (Hinv id tm h Hl Hcb) as [-> Hex].
    split; [done|]. cbn [input]. by rewrite <- Hs.
Qed.

Lemma completionsCurrent_step now e w w' :
  completionsCurrent w → step now e w = Some w' → completionsCurrent w'.
Proof.
  intros Hinv. destruct e as [| |id]; simpl.
  - destruct (input w); simpl; [|done]. intros [= <-].
    apply completionsCurrent_none. intros id tm h.
    by apply withInput_no_completion; [apply cancels_handlePressStart|].
  - destruct (input w) as [s|] eqn:Hs; simpl; [|done]. intros [= <-].
    by apply (completionsCurrent_release now w s).
  - destruct (Timers.take id now (timers w)) as [[cb ts]|] eqn:Ht; simpl; [|done].
    apply take_Some in Ht as (tm0 & Hl0 & _ & -> & ->).
    pose proof (completionsCurrent_taken id w Hinv) as Hinv0.
    destruct (Timers.callback tm0) as [h0|i|] eqn:Hcb0.
    + destruct (Hinv id tm0 h0 Hl0 Hcb0) as [_ (s0 & Hs0 & Hct0)].
      simpl. rewrite Hs0. simpl. intros [= <-].
      apply completionsCurrent_none. cbn [timers].
      assert (∀ id' tm h,
                Timers.pending (Timers.clearTimeout id (timers w)) !! id' = Some tm →
                Timers.callback tm = CharTimeout h → False) as Hno.
      { intros id' tm h Hl Hcb. cbn [Timers.clearTimeout Timers.pending] in Hl.
        apply lookup_delete_Some in Hl as [Hne Hl].
        destruct (Hinv id' tm h Hl Hcb) as [_ (s & Hs & Hct)]. congruence. }
      destruct (MorseInput.completeInputSequence h0 s0) as [[h' code]|]; [|done].
      unfold handleInputComplete. destruct (itemAt h'); [|done].
      destruct (decide _); cbn [later timers Timers.setTimeout snd Timers.pending];
        intros id' tm h [[<- <-]|[_ Hl]]%lookup_insert_Some Hcb; try done;
        by apply (Hno id' tm h).
    + simpl. intros [= <-]. by apply completionsCurrent_advance.
    + simpl. intros [= <-]. unfold retry.
      apply completionsCurrent_none. intros id' tm h.
      by apply withInput_no_completion; [apply cancels_clearInput|].
Qed.

Lemma completionsCurrent_run t0 clock evs w :
  run clock evs (mount t0) = Some w → completionsCurrent w.
Proof.
  intros Hrun.
  assert (completionsCurrent (mount t0)) as Hinv0.
  { intros id tm h Hl. cbn [mount timers Timers.empty Timers.pending] in Hl.
    by rewrite lookup_empty in Hl. }
  revert Hrun Hinv0. generalize (mount t0). revert clock.
  induction evs as [|[now e] evs IH]; intros clock w0; simpl.
  - by intros [= <-].
  - destruct (decide (clock ≤ now)); [|done].
    destruct (step now e w0) as [w1|] eqn:Hstep; simpl; [|done].
    intros Hrun Hinv. apply (IH _ _ Hrun). by eapply completionsCurrent_step.
Qed.

(** Property X19. In every state of the session reached from mount, a
    pending completion timer carries the [handleInputComplete] of the item
    on screen and is the timer remembered by the decoder on screen; hence
    at most one is pending, and no completion of an item left behind is
    ever judged. *)
Theorem completions_belong_to_the_current_item t0 clock evs w id tm h :
  run clock evs (mount t0) = Some w →
  Timers.pending (timers w) !! id = Some tm →
  Timers.callback tm = CharTimeout h →
  h = currentItemIndex (ui w) ∧
  (∃ s, input w = Some s ∧ MorseInput.charTimer s = Some id) ∧
  ∀ id' tm' h',
    Timers.pending (timers w) !! id' = Some tm' →
    Timers.callback tm' = CharTimeout h' → id' = id.
Proof.
  intros Hinv%completionsCurrent_run Hl Hcb.
  destruct (Hinv id tm h Hl Hcb) as [Hh (s & Hs & Hct)].
  split_and!; [done|by exists s|].
  intros id' tm' h' Hl' Hcb'.
  destruct (Hinv id' tm' h' Hl' Hcb') as [_ (s' & Hs' & Hct')]. congruence.
Qed.

Lemma completions_belong_to_the_current_item_witness :
  ∃ w, run 0 [(1000, Press); (1100, Release)] (mount 0) = Some w ∧
    ∃ s, input w = Some s ∧ MorseInput.charTimer s = Some 1%positive.
Proof.
  eexists. split; [by vm_compute|].
  match goal with
  | |- ∃ s, input ?w = Some s ∧ _ =>
      exact (proj1 (proj2
               (completions_belong_to_the_current_item 0 0
                  [(1000, Press); (1100, Release)] w 1
                  {| Timers.due := 1550; Timers.callback := CharTimeout 0 |} 0%nat
                  ltac:(by vm_compute) ltac:(by vm_compute) eq_refl)))
  end.
Defined.

End SessionTimers.

(** ** The retry after an incorrect answer *)

Section Retry.
Import LearningInterface Invariants.






















End Retry.
